(** * go-ipfs: ingestion (ipfs add), garbage collection, fuse mounting and
      dial filters

    A shallow embedding of four Go files of go-ipfs:

    - [filter]   (package filter):   the dial-filter set and [AddrBlocked];
    - [mount]    (commands/mount):   [Mount] and [doMount];
    - [corerepo] (core/corerepo/gc): [GarbageCollect], [GarbageCollectAsync];
    - [add]      (core/commands/add): the [ipfs add] pipeline.

    Go values are modelled as the code has them: an [error] is a value that is
    compared with [nil] and type-switched, a Go map is a [gmap], [int64] is a
    [Z] with its wrap-around, channels are the sequences of values sent on
    them.  Packages of the repository that the four files only call
    (merkledag, importer, pin, pin/gc, fuse, commands/files) are variables of
    the sections below. *)

From Stdlib Require Import ZArith Lia Bool Ascii String Sorted.
From stdpp Require Import gmap strings list fin_maps.

(** ** Go errors

    The error values the four files create, compare or type-switch on, and
    [errorString] for every other error (the result of [fmt.Errorf] or
    [errors.New], identified by its message). *)
Inductive error : Type :=
| io_EOF
| hiddenFileError (fileName : string)
| ignoreFileError (fileName : string)
| ErrDepthLimitExceeded
| ClientError (msg : string)
| context_Canceled
| context_DeadlineExceeded
| errorString (msg : string).

(** A Go [(T, error)] result on which only one side is meaningful. *)
Inductive result (A : Type) : Type :=
| Ok (a : A)
| Err (e : error).
Arguments Ok {A} a.
Arguments Err {A} e.

(** [err == io.EOF] *)
Definition is_EOF (e : error) : bool :=
  match e with io_EOF => true | _ => false end.

(** The type assertion of [err] to a pointer to [hiddenFileError]. *)
Definition is_hiddenFileError (e : error) : bool :=
  match e with hiddenFileError _ => true | _ => false end.

(** ** Go strings

    [strings.Split s sep] for a one-byte separator: the substrings between
    the separators, one empty string for the empty input. *)
Fixpoint Split (s : string) (sep : ascii) : list string :=
  match s with
  | EmptyString => [EmptyString]
  | String c s' =>
      if Ascii.eqb c sep then EmptyString :: Split s' sep
      else match Split s' sep with
           | [] => [String c EmptyString]
           | h :: t => String c h :: t
           end
  end.

(** [s[0]] of a slice of strings that [Split] returned (never empty). *)
Definition first_field (l : list string) : string :=
  match l with
  | [] => EmptyString
  | h :: _ => h
  end.

(** The byte [c] occurs in [s]. *)
Fixpoint mentions (c : ascii) (s : string) : bool :=
  match s with
  | EmptyString => false
  | String a s' => Ascii.eqb a c || mentions c s'
  end.

(** * Package filter *)
Module filter.

(** A small world for examples: a multiaddr is its dial address, the empty
    one having no dial arguments; an IP is its text; a network is a textual
    prefix with a tag, printed without the tag. *)
Definition net_DialArgs (a : string) : result (string * string) :=
  if String.eqb a "" then Err (errorString "no dial arguments") else Ok ("tcp4", a).
Definition net_ParseIP (s : string) : string := s.
Definition net_Contains (net : string * nat) (ip : string) : bool :=
  String.prefix (fst net) ip.
Definition net_String (net : string * nat) : string := fst net.

Section Filters.

(** [ma.Multiaddr], [net.IP] (nil included) and [net.IPNet]. *)
Variables Multiaddr IP IPNet : Type.

(** [manet.DialArgs]: the network and the [host:port] string, or an error. *)
Variable DialArgs : Multiaddr -> result (string * string).
(** [net.ParseIP]: the address, or the nil [IP]. *)
Variable ParseIP : string -> IP.
(** The methods [Contains] and [String] of [net.IPNet]. *)
Variable Contains : IPNet -> IP -> bool.
Variable IPNet_String : IPNet -> string.

(** [type Filters struct { mu sync.RWMutex; filters map[string]*net.IPNet }];
    the mutex guards the map and holds no data. *)
Record Filters : Type := mkFilters { filters : gmap string IPNet }.

Definition NewFilters : Filters := mkFilters ∅.

(** [fs.filters[f.String()] = f] *)
Definition AddDialFilter (fs : Filters) (f : IPNet) : Filters :=
  mkFilters (<[IPNet_String f := f]> (filters fs)).

(** The IP that [AddrBlocked] tests:
    [net.ParseIP(strings.Split(addr, ":")[0])]. *)
Definition dial_ip (addr : string) : IP :=
  ParseIP (first_field (Split addr ":"%char)).

(** [AddrBlocked]: the range over the map returns [true] at the first filter
    that contains the IP, in whatever order the map is walked. *)
Definition AddrBlocked (f : Filters) (a : Multiaddr) : bool :=
  match DialArgs a with
  | Err _ => false
  | Ok (_, addr) =>
      let ip := dial_ip addr in
      existsb (fun kv => Contains (snd kv) ip) (map_to_list (filters f))
  end.

(** [Filters()]: the registered networks, in map order. *)
Definition Filters_list (f : Filters) : list IPNet :=
  snd <$> map_to_list (filters f).

(** [delete(f.filters, ff.String())] *)
Definition Remove (f : Filters) (ff : IPNet) : Filters :=
  mkFilters (delete (IPNet_String ff) (filters f)).

(** A network is registered when the map holds it under some key. *)
Definition registered (f : Filters) (ft : IPNet) : Prop :=
  ∃ k, filters f !! k = Some ft.

Lemma existsb_map_to_list (m : gmap string IPNet) (p : IPNet -> bool) :
  existsb (fun kv => p (snd kv)) (map_to_list m) = true
  <-> ∃ k ft, m !! k = Some ft ∧ p ft = true.
Proof.
  rewrite existsb_exists. split.
  - intros [[k ft] [Hin Hp]]. exists k, ft. split; [|exact Hp].
    apply elem_of_map_to_list. by apply list_elem_of_In.
  - intros (k & ft & Hk & Hp). exists (k, ft). split; [|exact Hp].
    apply list_elem_of_In. by apply elem_of_map_to_list.
Qed.

Lemma registered_AddDialFilter (fs : Filters) (f : IPNet) :
  registered (AddDialFilter fs f) f.
Proof. exists (IPNet_String f). cbn. apply lookup_insert_eq. Qed.

Lemma NewFilters_blocks_nothing (a : Multiaddr) :
  AddrBlocked NewFilters a = false.
Proof.
  unfold AddrBlocked, NewFilters. destruct (DialArgs a) as [[nw addr]|e]; [|done].
  cbn. by rewrite map_to_list_empty.
Qed.

(** C10.  A multiaddr whose dial arguments cannot be parsed is never
    reported as blocked; a parseable one is blocked exactly when some
    registered filter network contains the IP parsed from its dial
    address. *)
Theorem AddrBlocked_iff_registered_contains (f : Filters) (a : Multiaddr) :
  match DialArgs a with
  | Err _ => AddrBlocked f a = false
  | Ok (_, addr) =>
      AddrBlocked f a = true
      <-> ∃ ft, registered f ft ∧ Contains ft (dial_ip addr) = true
  end.
Proof.
  unfold AddrBlocked, registered.
  destruct (DialArgs a) as [[nw addr]|e]; [|reflexivity].
  cbv zeta.
  rewrite (existsb_map_to_list (filters f) (fun ft => Contains ft (dial_ip addr))).
  split.
  - intros (k & ft & Hk & Hc). exists ft. eauto.
  - intros (ft & [k Hk] & Hc). eauto.
Qed.

(** ** Adding, removing and listing filters *)

Lemma AddrBlocked_true_iff (f : Filters) (a : Multiaddr) (nw addr : string) :
  DialArgs a = Ok (nw, addr) ->
  AddrBlocked f a = true
  <-> ∃ k ft, filters f !! k = Some ft ∧ Contains ft (dial_ip addr) = true.
Proof.
  intros Ha. unfold AddrBlocked. rewrite Ha. cbv zeta.
  apply (existsb_map_to_list (filters f) (fun ft => Contains ft (dial_ip addr))).
Qed.

(** X1.  After [AddDialFilter fs f] a parseable address is blocked exactly
    when [f] contains its IP or a network that [fs] holds under another
    name than that of [f] does: the new network takes the place of whatever
    was registered under its name. *)
Theorem AddrBlocked_after_AddDialFilter (fs : Filters) (f : IPNet) (a : Multiaddr) :
  match DialArgs a with
  | Err _ => AddrBlocked (AddDialFilter fs f) a = false
  | Ok (_, addr) =>
      AddrBlocked (AddDialFilter fs f) a
      = Contains f (dial_ip addr) || AddrBlocked (Remove fs f) a
  end.
Proof.
  destruct (DialArgs a) as [[nw addr]|e] eqn:Ha;
    [|unfold AddrBlocked; now rewrite Ha].
  apply eq_true_iff_eq. rewrite orb_true_iff.
  rewrite !(AddrBlocked_true_iff _ a nw addr Ha). cbn [AddDialFilter Remove filters].
  split.
  - intros (k & ft & Hk & Hc). apply lookup_insert_Some in Hk as [[_ <-]|[Hne Hk]].
    + now left.
    + right. exists k, ft. split; [|exact Hc]. apply lookup_delete_Some. auto.
  - intros [Hc|(k & ft & Hk & Hc)].
    + exists (IPNet_String f), f. split; [apply lookup_insert_eq|exact Hc].
    + apply lookup_delete_Some in Hk as [Hne Hk]. exists k, ft.
      split; [|exact Hc]. apply lookup_insert_Some. auto.
Qed.

(** X2.  [Remove] undoes [AddDialFilter]: removing a network right after
    adding it leaves the set as if the network's name had been removed from
    the original, which is the original itself when the name was free. *)
Theorem Remove_after_AddDialFilter (fs : Filters) (f : IPNet) :
  Remove (AddDialFilter fs f) f = Remove fs f
  /\ (filters fs !! IPNet_String f = None -> Remove (AddDialFilter fs f) f = fs).
Proof.
  destruct fs as [m]. unfold Remove, AddDialFilter. cbn [filters].
  rewrite delete_insert_eq. split; [reflexivity|].
  intros Hm. now rewrite delete_id.
Qed.

(** X3.  [Filters()] lists exactly the registered networks, one entry per
    name in the map, and an address is blocked exactly when a listed
    network contains its IP. *)
Theorem Filters_list_registered (f : Filters) :
  (forall ft, ft ∈ Filters_list f <-> registered f ft)
  /\ length (Filters_list f) = size (filters f)
  /\ (forall a nw addr, DialArgs a = Ok (nw, addr) ->
      AddrBlocked f a = existsb (fun ft => Contains ft (dial_ip addr)) (Filters_list f)).
Proof.
  unfold Filters_list, registered. split; [|split].
  - intros ft. rewrite list_elem_of_fmap. split.
    + intros ([k ft'] & -> & Hin). exists k. now apply elem_of_map_to_list.
    + intros [k Hk]. exists (k, ft). split; [reflexivity|].
      now apply elem_of_map_to_list.
  - now rewrite length_fmap, length_map_to_list.
  - intros a nw addr Ha. unfold AddrBlocked. rewrite Ha. cbv zeta.
    induction (map_to_list (filters f)) as [|kv l IH]; [reflexivity|].
    cbn. now rewrite IH.
Qed.

(** X4.  The map is keyed by the text of the network: adding a network
    whose text is that of one added before replaces the earlier one, and
    adding the same network twice is adding it once. *)
Theorem AddDialFilter_same_name_replaces (fs : Filters) (f g : IPNet) :
  IPNet_String f = IPNet_String g ->
  AddDialFilter (AddDialFilter fs f) g = AddDialFilter fs g
  /\ length (Filters_list (AddDialFilter (AddDialFilter fs f) g))
     = length (Filters_list (AddDialFilter fs f)).
Proof.
  intros Hs. assert (Heq : AddDialFilter (AddDialFilter fs f) g = AddDialFilter fs g).
  { unfold AddDialFilter. cbn [filters]. rewrite Hs. now rewrite insert_insert_eq. }
  split; [exact Heq|]. rewrite Heq. unfold Filters_list, AddDialFilter.
  cbn [filters]. rewrite !length_fmap, !length_map_to_list, Hs.
  now rewrite !map_size_insert.
Qed.

(** X5.  The IP that [AddrBlocked] tests is parsed from the dial address up
    to its first colon: from the host of a [host:port] address whose host
    has no colon, and from the whole address when it has no colon at all. *)
Theorem dial_ip_up_to_first_colon (host rest : string) :
  mentions ":"%char host = false ->
  dial_ip (host +:+ String ":"%char rest) = ParseIP host
  /\ dial_ip host = ParseIP host.
Proof.
  intros Hh. unfold dial_ip. split; f_equal.
  - induction host as [|c host IH].
    + change (EmptyString +:+ String ":"%char rest) with (String ":"%char rest).
      cbn [Split]. now rewrite Ascii.eqb_refl.
    + change (String c host +:+ String ":"%char rest)
        with (String c (host +:+ String ":"%char rest)).
      cbn [Split mentions] in *.
      apply orb_false_iff in Hh as [Hc Hh]. rewrite Hc. specialize (IH Hh).
      destruct (Split (host +:+ String ":"%char rest) ":"%char) as [|h0 t];
        cbn [first_field] in *; now rewrite <- IH.
  - induction host as [|c host IH]; cbn [Split mentions] in *.
    + reflexivity.
    + apply orb_false_iff in Hh as [Hc Hh]. rewrite Hc. specialize (IH Hh).
      destruct (Split host ":"%char) as [|h0 t]; cbn [first_field] in *;
        now rewrite <- IH.
Qed.

(** X6.  Removing a network never blocks an address that was not blocked
    before. *)
Theorem AddrBlocked_after_Remove (fs : Filters) (ff : IPNet) (a : Multiaddr) :
  AddrBlocked (Remove fs ff) a = true -> AddrBlocked fs a = true.
Proof.
  destruct (DialArgs a) as [[nw addr]|e] eqn:Ha;
    [|unfold AddrBlocked; now rewrite Ha].
  rewrite !(AddrBlocked_true_iff _ a nw addr Ha). cbn [Remove filters].
  intros (k & ft & Hk & Hc). apply lookup_delete_Some in Hk as [_ Hk]. eauto.
Qed.

End Filters.

(** The theorems on the small world. *)

Local Abbreviation net_filters := (Filters (string * nat)).
Local Abbreviation net_New := (NewFilters (string * nat)).
Local Abbreviation net_Add := (AddDialFilter (string * nat) net_String).
Local Abbreviation net_Remove := (Remove (string * nat) net_String).
Local Abbreviation net_Blocked :=
  (AddrBlocked string string (string * nat) net_DialArgs net_ParseIP net_Contains).

Lemma AddDialFilter_same_name_sample :
  net_Add (net_Add net_New ("10.", 1)) ("10.", 2) = net_Add net_New ("10.", 2).
Proof.
  exact (proj1 (AddDialFilter_same_name_replaces (string * nat) net_String
                  net_New ("10.", 1) ("10.", 2) eq_refl)).
Defined.

Lemma dial_ip_sample :
  dial_ip string net_ParseIP "10.1.2.3:4001" = "10.1.2.3".
Proof.
  exact (proj1 (dial_ip_up_to_first_colon string net_ParseIP "10.1.2.3" "4001"
                  eq_refl)).
Defined.

Lemma AddrBlocked_after_Remove_sample :
  net_Blocked (net_Add (net_Add net_New ("10.", 1)) ("192.", 1)) "10.1.2.3:4001" = true.
Proof.
  apply (AddrBlocked_after_Remove string string (string * nat) net_DialArgs
           net_ParseIP net_Contains net_String
           (net_Add (net_Add net_New ("10.", 1)) ("192.", 1)) ("192.", 1)).
  vm_compute. reflexivity.
Defined.

(** A bracketed IPv6 dial address is cut inside the brackets. *)
Example dial_ip_bracketed :
  dial_ip string net_ParseIP "[::1]:4001" = "[".
Proof. reflexivity. Qed.

End filter.

(** * Command mount (fuse) *)
Module mount.

(** [err.Error()] *)
Definition Error (e : error) : string :=
  match e with
  | io_EOF => "EOF"
  | hiddenFileError f => f +:+ " is a hidden file"
  | ignoreFileError f => f +:+ " is an ignored file"
  | ErrDepthLimitExceeded => "depth limit exceeded"
  | ClientError msg => msg
  | context_Canceled => "context canceled"
  | context_DeadlineExceeded => "context deadline exceeded"
  | errorString msg => msg
  end.

(** [strings.Contains] *)
Fixpoint Contains (s substr : string) : bool :=
  String.prefix substr s
  || match s with
     | EmptyString => false
     | String _ s' => Contains s' substr
     end.

(** [strings.Replace s old new (-1)] for a non-empty [old]: every
    non-overlapping occurrence, left to right.  [skip] counts the bytes of
    an occurrence that are still to be dropped. *)
Fixpoint replace_from (old new s : string) (skip : nat) : string :=
  match s with
  | EmptyString => EmptyString
  | String c s' =>
      match skip with
      | S k => replace_from old new s' k
      | O =>
          if String.prefix old s
          then new +:+ replace_from old new s' (Nat.pred (String.length old))
          else String c (replace_from old new s' O)
      end
  end.

Definition Replace (s old new : string) : string := replace_from old new s O.

(** The double quote and the backslash of the Go string literals below. *)
Definition dquote : string := String (ascii_of_nat 34) EmptyString.
Definition backslash : string := String (ascii_of_nat 92) EmptyString.

Definition fuseNoDirectory : string := "fusermount: failed to access mountpoint".
Definition fuseExitStatus1 : string := "fusermount: exit status 1".

(** The closure [fmtFuseErr] of [doMount]. *)
Definition fmtFuseErr (err : error) (mountpoint : string) : error :=
  let s := Error err in
  if Contains s fuseNoDirectory then
    let s := Replace s ("fusermount: " +:+ dquote +:+ "fusermount:") "" in
    let s := Replace s (backslash +:+ "n" +:+ dquote +:+ ", exit status 1") "" in
    ClientError s
  else if String.eqb s fuseExitStatus1 then
    ClientError ("fuse failed to access mountpoint " +:+ mountpoint)
  else err.

(** [cmds.ErrorType], as [MountCmd] uses it. *)
Inductive ErrorType : Type := ErrNormal | ErrClient.

(** [config.Mounts]: the two mount points. *)
Record config_Mounts : Type := mkConfigMounts { IPFS : string; IPNS : string }.

(** What [MountCmd.Run] reads from its request: the configuration and the
    node of the invocation, or the error of getting them, whether the node
    is online, and what [req.Option(name).String()] returns for the options
    [f] and [n]: the value, whether it was found, and an error. *)
Record request (Node : Type) : Type := mkRequest {
  GetConfig : result config_Mounts;
  GetNode : result Node;
  OnlineMode : bool;
  option_f : string * bool * option error;
  option_n : string * bool * option error
}.
Arguments GetConfig {Node} r.
Arguments GetNode {Node} r.
Arguments OnlineMode {Node} r.
Arguments option_f {Node} r.
Arguments option_n {Node} r.

(** What [Run] sets on the response. *)
Inductive response : Type :=
| SetError (err : error) (code : ErrorType)
| SetOutput (output : config_Mounts).

Definition newline : string := String (ascii_of_nat 10) EmptyString.

(** The text marshaler of [MountCmd]. *)
Definition Marshal_Text (v : config_Mounts) : string :=
  ("IPFS mounted at: " +:+ IPFS v +:+ newline)
  +:+ ("IPNS mounted at: " +:+ IPNS v +:+ newline).

(** A small world for examples: mounting succeeds with mount 1 for ipfs and
    mount 2 for ipns, except on the directory [/missing]. *)
Definition sample_rofs {N : Type} (node : N) (dir : string) : option nat * option error :=
  if String.eqb dir "/missing"
  then (None, Some (errorString "fusermount: exit status 1"))
  else (Some 1, None).

Definition sample_ipns {N : Type} (node : N) (nsdir fsdir : string)
  : option nat * option error :=
  if String.eqb nsdir "/missing"
  then (None, Some (errorString "fusermount: exit status 1"))
  else (Some 2, None).

Definition sample_checks {N : Type} (node : N) : option error := None.

Section Mount.

(** A live fuse mount, a non-nil [mount.Mount]. *)
Variable MountT : Type.

(** [node.Mounts]: the two fields of the node that [Mount] and [doMount]
    read and write; a nil interface is [None]. *)
Record Mounts : Type := mkMounts { Ipfs : option MountT; Ipns : option MountT }.

(** [rofs.Mount(node, fsdir)] and [ipns.Mount(node, nsdir, fsdir)]: the
    mount and the error they return, either of which may be nil. *)
Variable rofs_Mount : Mounts -> string -> option MountT * option error.
Variable ipns_Mount : Mounts -> string -> string -> option MountT * option error.

(** [platformFuseChecks] *)
Variable platformFuseChecks : Mounts -> option error.

(** What a call leaves behind: the node's mount state, the mounts on which
    [Unmount()] was called, in call order, and the returned error. *)
Record outcome : Type :=
  mkOutcome { node_after : Mounts; unmounted : list MountT; returned : option error }.

(** [if m != nil { m.Unmount() }] *)
Definition unmount_if_set (m : option MountT) : list MountT :=
  match m with
  | Some x => [x]
  | None => []
  end.

(** [doMount].  The two goroutines run [rofs.Mount] and [ipns.Mount] and the
    function waits for both before it reads [fsmount], [nsmount], [err1] and
    [err2]. *)
Definition doMount (node : Mounts) (fsdir nsdir : string) : outcome :=
  let '(fsmount, err1) := rofs_Mount node fsdir in
  let '(nsmount, err2) := ipns_Mount node nsdir fsdir in
  match err1, err2 with
  | None, None =>
      mkOutcome (mkMounts fsmount nsmount) [] None
  | Some e1, _ =>
      mkOutcome node (unmount_if_set fsmount ++ unmount_if_set nsmount)
                (Some (fmtFuseErr e1 fsdir))
  | None, Some e2 =>
      mkOutcome node (unmount_if_set fsmount ++ unmount_if_set nsmount)
                (Some (fmtFuseErr e2 nsdir))
  end.

(** [Mount]: live mounts are unmounted first, then the platform checks run,
    then [doMount]. *)
Definition Mount (node : Mounts) (fsdir nsdir : string) : outcome :=
  let before := unmount_if_set (Ipfs node) ++ unmount_if_set (Ipns node) in
  match platformFuseChecks node with
  | Some err => mkOutcome node before (Some err)
  | None =>
      let o := doMount node fsdir nsdir in
      mkOutcome (node_after o) (before ++ unmounted o) (returned o)
  end.

(** A mount call succeeded when it returned no error. *)
Definition succeeded (r : option MountT * option error) : bool :=
  match snd r with None => true | Some _ => false end.

(** [errNotOnline] of package commands. *)
Variable errNotOnline : error.

(** What a run of the command leaves: the response, and the outcome of
    [Mount] when [Run] got as far as calling it. *)
Record cmd_outcome : Type := mkCmd { res : response; mounted : option outcome }.

(** The directory an option names, or the default of the configuration. *)
Definition dir_or_default (found : bool) (value default : string) : string :=
  if found then value else default.

(** [MountCmd.Run] *)
Definition MountCmd_Run (req : request Mounts) : cmd_outcome :=
  match GetConfig req with
  | Err err => mkCmd (SetError err ErrNormal) None
  | Ok cfg =>
      match GetNode req with
      | Err err => mkCmd (SetError err ErrNormal) None
      | Ok node =>
          if negb (OnlineMode req) then mkCmd (SetError errNotOnline ErrClient) None
          else
            let '(fsdir, found, err) := option_f req in
            match err with
            | Some err => mkCmd (SetError err ErrNormal) None
            | None =>
                let fsdir := dir_or_default found fsdir (IPFS cfg) in
                let '(nsdir, found, err) := option_n req in
                match err with
                | Some err => mkCmd (SetError err ErrNormal) None
                | None =>
                    let nsdir := dir_or_default found nsdir (IPNS cfg) in
                    let o := Mount node fsdir nsdir in
                    match returned o with
                    | Some err => mkCmd (SetError err ErrNormal) (Some o)
                    | None => mkCmd (SetOutput (mkConfigMounts fsdir nsdir)) (Some o)
                    end
                end
            end
      end
  end.

Lemma doMount_both_ok (node : Mounts) (fsdir nsdir : string) fsmount nsmount :
  rofs_Mount node fsdir = (fsmount, None) ->
  ipns_Mount node nsdir fsdir = (nsmount, None) ->
  doMount node fsdir nsdir = mkOutcome (mkMounts fsmount nsmount) [] None.
Proof. intros H1 H2. unfold doMount. now rewrite H1, H2. Qed.

Lemma doMount_failed (node : Mounts) (fsdir nsdir : string) :
  succeeded (rofs_Mount node fsdir) && succeeded (ipns_Mount node nsdir fsdir) = false ->
  node_after (doMount node fsdir nsdir) = node
  /\ unmounted (doMount node fsdir nsdir)
     = unmount_if_set (fst (rofs_Mount node fsdir))
       ++ unmount_if_set (fst (ipns_Mount node nsdir fsdir))
  /\ returned (doMount node fsdir nsdir) <> None.
Proof.
  unfold doMount, succeeded.
  destruct (rofs_Mount node fsdir) as [fsmount [e1|]];
    destruct (ipns_Mount node nsdir fsdir) as [nsmount [e2|]]; cbn;
    intros H; try discriminate H; repeat split; discriminate.
Qed.

(** C9.  When either fuse mount fails, every mount that was returned is
    unmounted, so each mount that succeeded is, and the node's mount state
    is the one before the call; [Mounts.Ipfs] and [Mounts.Ipns] are assigned
    only when both mounts succeed, and then with the two new mounts. *)
Theorem doMount_assigns_only_when_both_succeed (node : Mounts) (fsdir nsdir : string) :
  let fs := rofs_Mount node fsdir in
  let ns := ipns_Mount node nsdir fsdir in
  let o := doMount node fsdir nsdir in
  if succeeded fs && succeeded ns
  then node_after o = mkMounts (fst fs) (fst ns)
       /\ unmounted o = [] /\ returned o = None
  else node_after o = node
       /\ returned o <> None
       /\ (forall m, succeeded fs = true -> fst fs = Some m -> m ∈ unmounted o)
       /\ (forall m, succeeded ns = true -> fst ns = Some m -> m ∈ unmounted o).
Proof.
  cbv zeta.
  destruct (succeeded (rofs_Mount node fsdir)
            && succeeded (ipns_Mount node nsdir fsdir)) eqn:Hs.
  - apply andb_true_iff in Hs as [H1 H2]. unfold succeeded in H1, H2.
    destruct (rofs_Mount node fsdir) as [fsmount [e1|]] eqn:E1; [discriminate|].
    destruct (ipns_Mount node nsdir fsdir) as [nsmount [e2|]] eqn:E2; [discriminate|].
    rewrite (doMount_both_ok node fsdir nsdir fsmount nsmount E1 E2). auto.
  - destruct (doMount_failed node fsdir nsdir Hs) as (Hn & Hu & Hr).
    repeat split; try assumption.
    + intros m _ Hm. rewrite Hu, Hm. cbn. set_solver.
    + intros m _ Hm. rewrite Hu, Hm. cbn. set_solver.
Qed.

(** The node changes only through a call in which both mounts succeeded. *)
Lemma doMount_changed_node (node : Mounts) (fsdir nsdir : string) :
  node_after (doMount node fsdir nsdir) <> node ->
  succeeded (rofs_Mount node fsdir) = true
  /\ succeeded (ipns_Mount node nsdir fsdir) = true.
Proof.
  intros Hne.
  destruct (succeeded (rofs_Mount node fsdir)
            && succeeded (ipns_Mount node nsdir fsdir)) eqn:Hs.
  - now apply andb_true_iff in Hs.
  - destruct (doMount_failed node fsdir nsdir Hs) as (Hn & _). contradiction.
Qed.

(** ** [Mount] and the command *)

Lemma doMount_returned_None (node : Mounts) (fsdir nsdir : string) :
  returned (doMount node fsdir nsdir) = None
  <-> succeeded (rofs_Mount node fsdir) && succeeded (ipns_Mount node nsdir fsdir) = true.
Proof.
  unfold doMount, succeeded.
  destruct (rofs_Mount node fsdir) as [fsmount [e1|]];
    destruct (ipns_Mount node nsdir fsdir) as [nsmount [e2|]]; cbn;
    split; intros H; try discriminate H; reflexivity.
Qed.

Lemma Mount_succeeds_iff_helper (node : Mounts) (fsdir nsdir : string) :
  returned (Mount node fsdir nsdir) = None ->
  node_after (Mount node fsdir nsdir)
  = mkMounts (fst (rofs_Mount node fsdir)) (fst (ipns_Mount node nsdir fsdir))
  /\ unmounted (Mount node fsdir nsdir)
     = unmount_if_set (Ipfs node) ++ unmount_if_set (Ipns node).
Proof.
  unfold Mount. destruct (platformFuseChecks node) as [err|]; cbn; [discriminate|].
  intros Hr. apply doMount_returned_None in Hr.
  apply andb_true_iff in Hr as [H1 H2]. unfold succeeded in H1, H2.
  destruct (rofs_Mount node fsdir) as [fsmount [e1|]] eqn:E1; [discriminate|].
  destruct (ipns_Mount node nsdir fsdir) as [nsmount [e2|]] eqn:E2; [discriminate|].
  rewrite (doMount_both_ok node fsdir nsdir fsmount nsmount E1 E2). cbn.
  now rewrite app_nil_r.
Qed.

Lemma prefix_append (p q : string) :
  forall s, String.prefix (p +:+ q) s = true -> String.prefix p s = true.
Proof.
  induction p as [|a p IH]; intros s H; [now destruct s|].
  change (String a p +:+ q) with (String a (p +:+ q)) in H.
  destruct s as [|b s]; cbn in *; [discriminate|].
  destruct (ascii_dec a b); [now apply IH|discriminate].
Qed.

Lemma Contains_append (s p q : string) :
  Contains s (p +:+ q) = true -> Contains s p = true.
Proof.
  induction s as [|c s IH]; cbn [Contains]; rewrite !orb_true_iff.
  - intros [H|H]; [|discriminate]. left. now apply (prefix_append p q).
  - intros [H|H]; [left; now apply (prefix_append p q)|right; now apply IH].
Qed.

(** X7.  On every path, also when the platform checks or a mount fail,
    [Mount] unmounts the mounts the node holds, and they are the first to
    be unmounted; a call that returns an error leaves the node's mount
    fields as they were, pointing at the mounts it has just unmounted. *)
Theorem Mount_unmounts_live_mounts_first (node : Mounts) (fsdir nsdir : string) :
  (exists rest,
      unmounted (Mount node fsdir nsdir)
      = unmount_if_set (Ipfs node) ++ unmount_if_set (Ipns node) ++ rest)
  /\ (returned (Mount node fsdir nsdir) <> None ->
      node_after (Mount node fsdir nsdir) = node).
Proof.
  unfold Mount. destruct (platformFuseChecks node) as [err|]; cbn.
  - split; [exists []; now rewrite app_nil_r|reflexivity].
  - split; [eexists; now rewrite <- app_assoc|].
    intros Hr.
    destruct (succeeded (rofs_Mount node fsdir)
              && succeeded (ipns_Mount node nsdir fsdir)) eqn:Hs.
    + exfalso. apply Hr. now apply doMount_returned_None.
    + now destruct (doMount_failed node fsdir nsdir Hs).
Qed.

(** X8.  [Mount] returns nil exactly when the platform checks pass and both
    fuse mounts succeed, and the node then holds the two new mounts; the
    only mounts unmounted by such a call are those the node held before. *)
Theorem Mount_succeeds_iff (node : Mounts) (fsdir nsdir : string) :
  (returned (Mount node fsdir nsdir) = None
   <-> platformFuseChecks node = None
       /\ succeeded (rofs_Mount node fsdir) = true
       /\ succeeded (ipns_Mount node nsdir fsdir) = true)
  /\ (returned (Mount node fsdir nsdir) = None ->
      node_after (Mount node fsdir nsdir)
      = mkMounts (fst (rofs_Mount node fsdir)) (fst (ipns_Mount node nsdir fsdir))
      /\ unmounted (Mount node fsdir nsdir)
         = unmount_if_set (Ipfs node) ++ unmount_if_set (Ipns node)).
Proof.
  split; [|apply Mount_succeeds_iff_helper].
  unfold Mount. destruct (platformFuseChecks node) as [err|]; cbn.
  - split; [discriminate|intros [H _]; discriminate H].
  - rewrite doMount_returned_None, andb_true_iff. tauto.
Qed.

(** X9.  What one successful [Mount] installs, the next [Mount] unmounts
    before it does anything else. *)
Theorem Mount_again_unmounts_installed (node : Mounts) (fsdir nsdir fsdir' nsdir' : string) :
  returned (Mount node fsdir nsdir) = None ->
  exists rest,
    unmounted (Mount (node_after (Mount node fsdir nsdir)) fsdir' nsdir')
    = unmount_if_set (fst (rofs_Mount node fsdir))
      ++ unmount_if_set (fst (ipns_Mount node nsdir fsdir)) ++ rest.
Proof.
  intros Hok.
  destruct (Mount_succeeds_iff_helper node fsdir nsdir Hok) as [Hn _].
  rewrite Hn. unfold Mount at 1. cbn [Ipfs Ipns].
  destruct (platformFuseChecks _) as [err|]; cbn.
  - exists []. now rewrite app_nil_r.
  - eexists. now rewrite <- app_assoc.
Qed.

(** X10.  [doMount] reformats only fuse errors: an error whose text does
    not mention [fusermount] comes back from [fmtFuseErr] as it is. *)
Theorem fmtFuseErr_keeps_other_errors (err : error) (mountpoint : string) :
  Contains (Error err) "fusermount" = false ->
  fmtFuseErr err mountpoint = err.
Proof.
  intros Hc. unfold fmtFuseErr. cbv zeta.
  assert (H1 : Contains (Error err) fuseNoDirectory = false).
  { destruct (Contains (Error err) fuseNoDirectory) eqn:H; [|reflexivity].
    rewrite <- Hc. symmetry.
    apply (Contains_append (Error err) "fusermount" ": failed to access mountpoint").
    exact H. }
  rewrite H1.
  destruct (String.eqb (Error err) fuseExitStatus1) eqn:H2; [|reflexivity].
  apply String.eqb_eq in H2. rewrite H2 in Hc. discriminate Hc.
Qed.

(** X11.  When the command reports mount points, the node was online,
    [Mount] was called on exactly those two directories and returned nil,
    and each directory is the value of its option when the option was
    given, the default of the configuration otherwise. *)
Theorem MountCmd_Run_reports_what_it_mounted (req : request Mounts) (out : config_Mounts) :
  res (MountCmd_Run req) = SetOutput out ->
  OnlineMode req = true
  /\ exists cfg node,
      GetConfig req = Ok cfg /\ GetNode req = Ok node
      /\ mounted (MountCmd_Run req) = Some (Mount node (IPFS out) (IPNS out))
      /\ returned (Mount node (IPFS out) (IPNS out)) = None
      /\ IPFS out = dir_or_default (snd (fst (option_f req))) (fst (fst (option_f req))) (IPFS cfg)
      /\ IPNS out = dir_or_default (snd (fst (option_n req))) (fst (fst (option_n req))) (IPNS cfg).
Proof.
  unfold MountCmd_Run.
  destruct (GetConfig req) as [cfg|e]; [|discriminate].
  destruct (GetNode req) as [node|e]; [|discriminate].
  destruct (OnlineMode req); [|discriminate]. cbn [negb].
  destruct (option_f req) as [[fsdir ff] [e|]]; [discriminate|].
  destruct (option_n req) as [[nsdir fn] [e|]]; [discriminate|]. cbv zeta.
  destruct (returned (Mount node _ _)) as [e|] eqn:Hr; [discriminate|].
  cbn [res mounted]. intros [= <-]. cbn [IPFS IPNS fst snd].
  split; [reflexivity|]. exists cfg, node. auto 10.
Qed.

(** X12.  On a node that is not online the command mounts and unmounts
    nothing, and when the configuration and the node could be read it fails
    with [errNotOnline] as a client error. *)
Theorem MountCmd_Run_offline (req : request Mounts) :
  OnlineMode req = false ->
  mounted (MountCmd_Run req) = None
  /\ (exists err code, res (MountCmd_Run req) = SetError err code)
  /\ (forall cfg node, GetConfig req = Ok cfg -> GetNode req = Ok node ->
      res (MountCmd_Run req) = SetError errNotOnline ErrClient).
Proof.
  intros Hoff. unfold MountCmd_Run. rewrite Hoff. cbn [negb].
  destruct (GetConfig req) as [cfg|e]; [|cbn; split; [reflexivity|split; [eauto|discriminate]]].
  destruct (GetNode req) as [node|e]; [|cbn; split; [reflexivity|split; [eauto|discriminate]]].
  cbn. split; [reflexivity|]. split; eauto.
Qed.

End Mount.

(** The theorems on the small world: a node with no mounts. *)

Local Abbreviation sample_Mount :=
  (Mount nat (@sample_rofs (Mounts nat)) (@sample_ipns (Mounts nat))
     (@sample_checks (Mounts nat))).
Local Abbreviation sample_Run :=
  (MountCmd_Run nat (@sample_rofs (Mounts nat)) (@sample_ipns (Mounts nat))
     (@sample_checks (Mounts nat)) (errorString "not online")).

Lemma Mount_again_sample :
  exists rest,
    unmounted nat
      (sample_Mount (node_after nat (sample_Mount (mkMounts nat None None) "/ipfs" "/ipns"))
         "/ipfs" "/ipns")
    = [1; 2] ++ rest.
Proof.
  exact (Mount_again_unmounts_installed nat (@sample_rofs (Mounts nat))
           (@sample_ipns (Mounts nat)) (@sample_checks (Mounts nat))
           (mkMounts nat None None) "/ipfs" "/ipns" "/ipfs" "/ipns" eq_refl).
Defined.

Lemma fmtFuseErr_sample :
  fmtFuseErr (errorString "permission denied") "/ipfs" = errorString "permission denied".
Proof.
  exact (fmtFuseErr_keeps_other_errors (errorString "permission denied") "/ipfs" eq_refl).
Defined.

Lemma MountCmd_Run_sample :
  true = true
  /\ exists cfg node,
      Ok (mkConfigMounts "/ipfs" "/ipns") = Ok cfg
      /\ Ok (mkMounts nat None None) = Ok node
      /\ mounted nat
           (sample_Run (mkRequest (Mounts nat) (Ok (mkConfigMounts "/ipfs" "/ipns"))
                          (Ok (mkMounts nat None None)) true
                          ("/mnt/ipfs", true, None) ("", false, None)))
         = Some (sample_Mount node "/mnt/ipfs" "/ipns")
      /\ returned nat (sample_Mount node "/mnt/ipfs" "/ipns") = None
      /\ "/mnt/ipfs" = dir_or_default true "/mnt/ipfs" (IPFS cfg)
      /\ "/ipns" = dir_or_default false "" (IPNS cfg).
Proof.
  exact (MountCmd_Run_reports_what_it_mounted nat (@sample_rofs (Mounts nat))
           (@sample_ipns (Mounts nat)) (@sample_checks (Mounts nat))
           (errorString "not online")
           (mkRequest (Mounts nat) (Ok (mkConfigMounts "/ipfs" "/ipns"))
              (Ok (mkMounts nat None None)) true
              ("/mnt/ipfs", true, None) ("", false, None))
           (mkConfigMounts "/mnt/ipfs" "/ipns") eq_refl).
Defined.

Lemma MountCmd_Run_offline_sample :
  res nat
    (sample_Run (mkRequest (Mounts nat) (Ok (mkConfigMounts "/ipfs" "/ipns"))
                   (Ok (mkMounts nat (Some 1) (Some 2))) false
                   ("", false, None) ("", false, None)))
  = SetError (errorString "not online") ErrClient.
Proof.
  exact (proj2 (proj2 (MountCmd_Run_offline nat (@sample_rofs (Mounts nat))
           (@sample_ipns (Mounts nat)) (@sample_checks (Mounts nat))
           (errorString "not online")
           (mkRequest (Mounts nat) (Ok (mkConfigMounts "/ipfs" "/ipns"))
              (Ok (mkMounts nat (Some 1) (Some 2))) false
              ("", false, None) ("", false, None)) eq_refl))
           (mkConfigMounts "/ipfs" "/ipns") (mkMounts nat (Some 1) (Some 2))
           eq_refl eq_refl).
Defined.

End mount.

(** * Package corerepo: garbage collection over the two block stores *)
Module corerepo.

(** The two block-store domains of the node, [n.Blockstore] (data) and
    [n.PrivBlocks] (internal). *)
Inductive Domain : Type := Blockstore | PrivBlocks.

(** The case a [select] of [GarbageCollect] takes in one iteration of its
    loop: a receive from [rmed], a receive from [internal], or the receive
    from [ctx.Done()]. *)
Inductive SelectCase : Type := RecvRmed | RecvInternal | CtxDone.

(** The case a forwarding [select] of [GarbageCollectAsync] takes: the send
    on [out], or the receive from [ctx.Done()]. *)
Inductive ForwardCase : Type := SendOut | ForwardCtxDone.

(** How a [range] loop with a forwarding [select] ends: the channel was
    closed, the goroutine returned, or the schedule ended in a select of
    which no case is ready yet. *)
Inductive forward_end : Type := Exhausted | Returned | Waiting.

(** A node on which the mark of the data domain fails while the internal
    domain could be collected, and one on which both domains are swept. *)
Definition failing_data_gc (d : Domain) : result (list nat) :=
  match d with
  | Blockstore => Err (errorString "mark failed")
  | PrivBlocks => Ok [7]
  end.

Definition sweeping_gc (d : Domain) : result (list nat) :=
  match d with
  | Blockstore => Ok [1; 2]
  | PrivBlocks => Ok [3]
  end.

(** What a forwarding [select] of [GarbageCollectAsync] finds when it is
    evaluated: whether [ctx.Done()] is closed, whether a receiver is waiting
    on [out], and the case the Go runtime picks when both cases can
    proceed. *)
Record SelectEnv : Type := mkEnv {
  ctx_done : bool;
  receiver_ready : bool;
  runtime_pick : ForwardCase
}.

(** The case the [select] takes: the only case that can proceed, the pick
    of the runtime when both can, none while neither can. *)
Definition resolve (e : SelectEnv) : option ForwardCase :=
  match ctx_done e, receiver_ready e with
  | true, true => Some (runtime_pick e)
  | true, false => Some ForwardCtxDone
  | false, true => Some SendOut
  | false, false => None
  end.

(** The cases taken along what the selects find, one after the other; a
    select that finds no case ready waits for the next. *)
Definition schedule_of (envs : list SelectEnv) : list ForwardCase :=
  omap resolve envs.

Section GC.

(** [key.Key] *)
Variable Key : Type.

(** [type KeyRemoved struct { Key key.Key }] *)
Record KeyRemoved : Type := mkKeyRemoved { removed_key : Key }.

(** [gc.GC(ctx, bs, n.Pinning)] on a domain: an error, or the channel of
    removed keys, given by the keys sent on it before it is closed. *)
Variable gc_GC : Domain -> result (list Key).

(** [ctx.Err()] once the context is done. *)
Variable ctx_Err : error.

(** The variables of the loop of [GarbageCollect]: what is still to come on
    each channel, and the two flags. *)
Record loop_state : Type := mkLoop {
  rmed : list Key;
  internal : list Key;
  normalDone : bool;
  internalDone : bool
}.

Inductive step : Type :=
| Continue (s : loop_state)
| Return (err : option error).

(** One iteration of [for { select { ... } }]. *)
Definition select_step (s : loop_state) (c : SelectCase) : step :=
  match c with
  | RecvRmed =>
      match rmed s with
      | _ :: ks => Continue (mkLoop ks (internal s) (normalDone s) (internalDone s))
      | [] =>
          if internalDone s then Return None
          else Continue (mkLoop [] (internal s) true (internalDone s))
      end
  | RecvInternal =>
      match internal s with
      | _ :: ks => Continue (mkLoop (rmed s) ks (normalDone s) (internalDone s))
      | [] =>
          if normalDone s then Return None
          else Continue (mkLoop (rmed s) [] (normalDone s) true)
      end
  | CtxDone => Return (Some ctx_Err)
  end.

(** The loop under a schedule of select cases: the state it stops in, and
    what it returned, [None] while it is still selecting. *)
Fixpoint drain (s : loop_state) (sched : list SelectCase)
  : loop_state * option (option error) :=
  match sched with
  | [] => (s, None)
  | c :: sched' =>
      match select_step s c with
      | Continue s' => drain s' sched'
      | Return r => (s, Some r)
      end
  end.

(** A call of [GarbageCollect]: the domains on which [gc.GC] was requested,
    in order, the loop state at the end (the loop is not entered when a
    request fails), and the returned error, [None] while the call has not
    returned. *)
Record sync_run : Type := mkSync {
  requested : list Domain;
  at_end : loop_state;
  sync_returned : option (option error)
}.

Definition GarbageCollect (sched : list SelectCase) : sync_run :=
  match gc_GC Blockstore with
  | Err err => mkSync [Blockstore] (mkLoop [] [] false false) (Some (Some err))
  | Ok rmed0 =>
      match gc_GC PrivBlocks with
      | Err err =>
          mkSync [Blockstore; PrivBlocks] (mkLoop rmed0 [] false false)
                 (Some (Some err))
      | Ok internal0 =>
          let '(s, r) := drain (mkLoop rmed0 internal0 false false) sched in
          mkSync [Blockstore; PrivBlocks] s r
      end
  end.

(** [for k := range ch { select { case out <- &KeyRemoved{k}: case
    <-ctx.Done(): return } }]: what was sent on [out], how the loop ended,
    and the rest of the schedule. *)
Fixpoint forward (ch : list Key) (sched : list ForwardCase)
  : list KeyRemoved * forward_end * list ForwardCase :=
  match ch with
  | [] => ([], Exhausted, sched)
  | k :: ch' =>
      match sched with
      | [] => ([], Waiting, [])
      | SendOut :: sched' =>
          let '(sent, e, rest) := forward ch' sched' in
          (mkKeyRemoved k :: sent, e, rest)
      | ForwardCtxDone :: sched' => ([], Returned, sched')
      end
  end.

(** The goroutine of [GarbageCollectAsync]: the events sent on [out],
    whether the goroutine has exited, and whether [out] is closed.  The
    deferred [close(out)] runs whenever the function body is left. *)
Record async_run : Type := mkAsync {
  out : list KeyRemoved;
  exited : bool;
  closed : bool
}.

Definition leave (sent : list KeyRemoved) (e : forward_end) : async_run :=
  match e with
  | Waiting => mkAsync sent false false
  | Exhausted | Returned => mkAsync sent true true
  end.

Definition forwarder (rmed0 internal0 : list Key) (sched : list ForwardCase)
  : async_run :=
  match forward rmed0 sched with
  | (sent1, Exhausted, rest) =>
      let '(sent2, e, _) := forward internal0 rest in
      leave (sent1 ++ sent2) e
  | (sent1, e, _) => leave sent1 e
  end.

(** [GarbageCollectAsync]: the requests made, and the error or the run of
    the goroutine behind the returned channel. *)
Definition GarbageCollectAsync (sched : list ForwardCase)
  : list Domain * result async_run :=
  match gc_GC Blockstore with
  | Err err => ([Blockstore], Err err)
  | Ok rmed0 =>
      match gc_GC PrivBlocks with
      | Err err => ([Blockstore; PrivBlocks], Err err)
      | Ok internal0 =>
          ([Blockstore; PrivBlocks], Ok (forwarder rmed0 internal0 sched))
      end
  end.

(** ** The synchronous entry point *)

(** A flag is set only after the close of its channel was received. *)
Definition flags_sound (s : loop_state) : Prop :=
  (normalDone s = true -> rmed s = []) /\ (internalDone s = true -> internal s = []).

(** The schedule that receives everything from [rmed], then everything from
    [internal], each up to and including the close. *)
Definition drain_both (rmed0 internal0 : list Key) : list SelectCase :=
  replicate (length rmed0) RecvRmed ++ [RecvRmed]
  ++ replicate (length internal0) RecvInternal ++ [RecvInternal].

(** How often a schedule takes the case [c]. *)
Definition same_case (a b : SelectCase) : bool :=
  match a, b with
  | RecvRmed, RecvRmed | RecvInternal, RecvInternal | CtxDone, CtxDone => true
  | _, _ => false
  end.

Fixpoint picks (c : SelectCase) (sched : list SelectCase) : nat :=
  match sched with
  | [] => 0
  | x :: sched' => (if same_case x c then 1 else 0) + picks c sched'
  end.

(** The receives a channel still needs before its flag is set: one for
    each key to come and one for the close. *)
Definition receives_needed (done : bool) (ch : list Key) : nat :=
  if done then 0 else S (length ch).

Lemma select_step_sound (s s' : loop_state) (c : SelectCase) :
  flags_sound s -> select_step s c = Continue s' -> flags_sound s'.
Proof.
  intros [Hn Hi] Hstep. destruct s as [rm it nd idn]. cbn in *.
  destruct c; cbn in Hstep.
  - destruct rm as [|k ks].
    + destruct idn; [discriminate|]. injection Hstep as <-. split; cbn; auto.
    + injection Hstep as <-. split; cbn; [|exact Hi].
      intros Hd. specialize (Hn Hd). discriminate.
  - destruct it as [|k ks].
    + destruct nd; [discriminate|]. injection Hstep as <-. split; cbn; auto.
    + injection Hstep as <-. split; cbn; [exact Hn|].
      intros Hd. specialize (Hi Hd). discriminate.
  - discriminate.
Qed.

Lemma select_step_nil (s : loop_state) (c : SelectCase) :
  flags_sound s -> select_step s c = Return None ->
  rmed s = [] /\ internal s = [] /\ normalDone s || internalDone s = true.
Proof.
  intros [Hn Hi] Hstep. destruct s as [rm it nd idn]. cbn in *.
  destruct c; cbn in Hstep.
  - destruct rm; [|discriminate]. destruct idn; [|discriminate].
    rewrite orb_true_r. auto.
  - destruct it; [|discriminate]. destruct nd; [|discriminate]. auto.
  - discriminate.
Qed.

Lemma select_step_err (s : loop_state) (c : SelectCase) (err : error) :
  select_step s c = Return (Some err) -> c = CtxDone /\ err = ctx_Err.
Proof.
  destruct s as [rm it nd idn], c; cbn.
  - destruct rm; [destruct idn|]; discriminate.
  - destruct it; [destruct nd|]; discriminate.
  - intros [= <-]. auto.
Qed.

Lemma drain_returned (sched : list SelectCase) :
  forall s s' r, flags_sound s -> drain s sched = (s', Some r) ->
  match r with
  | None => rmed s' = [] /\ internal s' = [] /\ normalDone s' || internalDone s' = true
  | Some err => err = ctx_Err /\ CtxDone ∈ sched
  end.
Proof.
  induction sched as [|c sched IH]; intros s s' r Hs Hd; cbn in Hd.
  - discriminate.
  - destruct (select_step s c) as [s1|r1] eqn:Hstep.
    + specialize (IH s1 s' r (select_step_sound s s1 c Hs Hstep) Hd).
      destruct r; [|exact IH]. destruct IH as [-> Hin]. split; [reflexivity|].
      apply elem_of_cons. now right.
    + injection Hd as <- <-. destruct r1 as [err|].
      * destruct (select_step_err s c err Hstep) as [-> ->].
        split; [reflexivity|]. apply elem_of_cons. now left.
      * now apply (select_step_nil s c).
Qed.

Lemma drain_rmed_items (ks : list Key) :
  forall it nd idn sched,
  drain (mkLoop ks it nd idn) (replicate (length ks) RecvRmed ++ sched)
  = drain (mkLoop [] it nd idn) sched.
Proof. induction ks as [|k ks IH]; intros; cbn; [reflexivity|apply IH]. Qed.

Lemma drain_internal_items (ks : list Key) :
  forall rm nd idn sched,
  drain (mkLoop rm ks nd idn) (replicate (length ks) RecvInternal ++ sched)
  = drain (mkLoop rm [] nd idn) sched.
Proof. induction ks as [|k ks IH]; intros; cbn; [reflexivity|apply IH]. Qed.

(** Once both channels were received up to their close, the loop returns
    nil. *)
Lemma drain_both_returns_nil (rmed0 internal0 : list Key) :
  drain (mkLoop rmed0 internal0 false false) (drain_both rmed0 internal0)
  = (mkLoop [] [] true false, Some None).
Proof.
  unfold drain_both. rewrite drain_rmed_items. cbn [app drain select_step rmed internalDone internal].
  rewrite drain_internal_items. reflexivity.
Qed.

(** When the select takes the [ctx.Done()] case, the loop returns
    [ctx.Err()] at once. *)
Lemma drain_cancelled (s : loop_state) (sched : list SelectCase) :
  drain s (CtxDone :: sched) = (s, Some (Some ctx_Err)).
Proof. reflexivity. Qed.

(** C1, as the code has it.  [GarbageCollect] requests the data domain
    first; if that request fails the error is returned at once and the
    internal domain is not requested.  If it succeeds the internal domain is
    requested whatever happens later, and a failure of that request is
    returned.  With both channels open, the call returns nil only when
    everything was received from both channels and both were seen closed,
    and returns an error only when the select took the [ctx.Done()] case,
    the error being [ctx.Err()]. *)
Theorem GarbageCollect_requests_and_returns (sched : list SelectCase) :
  let run := GarbageCollect sched in
  match gc_GC Blockstore with
  | Err err =>
      requested run = [Blockstore] /\ sync_returned run = Some (Some err)
  | Ok rmed0 =>
      requested run = [Blockstore; PrivBlocks]
      /\ match gc_GC PrivBlocks with
         | Err err => sync_returned run = Some (Some err)
         | Ok internal0 =>
             match sync_returned run with
             | None => True
             | Some None =>
                 rmed (at_end run) = [] /\ internal (at_end run) = []
                 /\ normalDone (at_end run) || internalDone (at_end run) = true
             | Some (Some err) => err = ctx_Err /\ CtxDone ∈ sched
             end
         end
  end.
Proof.
  cbv zeta. unfold GarbageCollect.
  destruct (gc_GC Blockstore) as [rmed0|e1]; [|auto].
  destruct (gc_GC PrivBlocks) as [internal0|e2]; [|auto].
  destruct (drain (mkLoop rmed0 internal0 false false) sched) as [s r] eqn:Hd.
  cbn. split; [reflexivity|]. destruct r as [r|]; [|exact I].
  assert (Hs : flags_sound (mkLoop rmed0 internal0 false false))
    by (split; cbn; discriminate).
  exact (drain_returned sched _ s r Hs Hd).
Qed.

(** With both requests granted, the call does return: nil under the
    schedule that drains both channels. *)
Lemma GarbageCollect_returns_nil (rmed0 internal0 : list Key) :
  gc_GC Blockstore = Ok rmed0 -> gc_GC PrivBlocks = Ok internal0 ->
  sync_returned (GarbageCollect (drain_both rmed0 internal0)) = Some None.
Proof.
  intros H1 H2. unfold GarbageCollect. rewrite H1, H2, drain_both_returns_nil.
  reflexivity.
Qed.

(** ** The asynchronous entry point *)

Lemma forward_sends (ch : list Key) (n : nat) (sched : list ForwardCase) :
  length ch <= n ->
  forward ch (replicate n SendOut ++ sched)
  = (mkKeyRemoved <$> ch, Exhausted, replicate (n - length ch) SendOut ++ sched).
Proof.
  revert n. induction ch as [|k ch IH]; intros n Hn; cbn.
  - now rewrite Nat.sub_0_r.
  - destruct n as [|n]; [cbn in Hn; lia|]. cbn.
    rewrite IH by (cbn in Hn; lia). reflexivity.
Qed.

Lemma forward_cancelled (ch : list Key) (n : nat) (sched : list ForwardCase) :
  n < length ch ->
  forward ch (replicate n SendOut ++ ForwardCtxDone :: sched)
  = (mkKeyRemoved <$> take n ch, Returned, sched).
Proof.
  revert n. induction ch as [|k ch IH]; intros n Hn; cbn in Hn; [lia|].
  destruct n as [|n]; cbn; [reflexivity|].
  rewrite IH by lia. reflexivity.
Qed.

(** The loop sends a prefix of the channel, all of it when it ends with the
    channel closed. *)
Lemma forward_prefix (ch : list Key) :
  forall sched sent e rest, forward ch sched = (sent, e, rest) ->
  exists ks, sent = mkKeyRemoved <$> ks /\ ks `prefix_of` ch
             /\ (e = Exhausted -> ks = ch).
Proof.
  induction ch as [|k ch IH]; intros sched sent e rest Hf; cbn in Hf.
  - injection Hf as <- <- <-. exists []. auto.
  - destruct sched as [|[|] sched'].
    + injection Hf as <- <- <-. exists []. repeat split; [apply prefix_nil|discriminate].
    + destruct (forward ch sched') as [[sent' e'] rest'] eqn:Hf'.
      injection Hf as <- <- <-.
      destruct (IH sched' sent' e' rest' Hf') as (ks & -> & Hp & He).
      exists (k :: ks). repeat split; [now apply prefix_cons|].
      intros Hex. now rewrite (He Hex).
    + injection Hf as <- <- <-. exists []. repeat split; [apply prefix_nil|discriminate].
Qed.

Lemma leave_out (sent : list KeyRemoved) (e : forward_end) :
  out (leave sent e) = sent /\ closed (leave sent e) = exited (leave sent e).
Proof. destruct e; auto. Qed.

Lemma forwarder_order (rmed0 internal0 : list Key) (sched : list ForwardCase) :
  exists ks1 ks2,
    out (forwarder rmed0 internal0 sched)
    = (mkKeyRemoved <$> ks1) ++ (mkKeyRemoved <$> ks2)
    /\ ks1 `prefix_of` rmed0 /\ ks2 `prefix_of` internal0
    /\ (ks2 <> [] -> ks1 = rmed0).
Proof.
  unfold forwarder.
  destruct (forward rmed0 sched) as [[sent1 e1] rest1] eqn:H1.
  destruct (forward_prefix rmed0 sched sent1 e1 rest1 H1) as (ks1 & -> & Hp1 & He1).
  assert (Hstop : e1 <> Exhausted ->
    exists ks2, out (leave (mkKeyRemoved <$> ks1) e1)
                = (mkKeyRemoved <$> ks1) ++ (mkKeyRemoved <$> ks2)
      /\ ks1 `prefix_of` rmed0 /\ ks2 `prefix_of` internal0
      /\ (ks2 <> [] -> ks1 = rmed0)).
  { intros _. exists []. rewrite (proj1 (leave_out _ _)). cbn. rewrite app_nil_r.
    repeat split; [exact Hp1|apply prefix_nil|congruence]. }
  destruct e1.
  - destruct (forward internal0 rest1) as [[sent2 e2] rest2] eqn:H2.
    destruct (forward_prefix internal0 rest1 sent2 e2 rest2 H2) as (ks2 & -> & Hp2 & _).
    exists ks1, ks2. rewrite (proj1 (leave_out _ _)). auto.
  - exists ks1. apply Hstop. discriminate.
  - exists ks1. apply Hstop. discriminate.
Qed.

Lemma forwarder_closed_iff_exited (rmed0 internal0 : list Key) (sched : list ForwardCase) :
  closed (forwarder rmed0 internal0 sched) = exited (forwarder rmed0 internal0 sched).
Proof.
  unfold forwarder.
  destruct (forward rmed0 sched) as [[sent1 e1] rest1].
  destruct e1; try apply leave_out.
  destruct (forward internal0 rest1) as [[sent2 e2] rest2]. apply leave_out.
Qed.

Lemma forwarder_cancelled (rmed0 internal0 : list Key) (n : nat) (post : list ForwardCase) :
  n < length (rmed0 ++ internal0) ->
  forwarder rmed0 internal0 (replicate n SendOut ++ ForwardCtxDone :: post)
  = mkAsync (mkKeyRemoved <$> take n (rmed0 ++ internal0)) true true.
Proof.
  intros Hn. unfold forwarder. rewrite length_app in Hn.
  destruct (decide (n < length rmed0)) as [Hlt|Hge].
  - rewrite forward_cancelled by exact Hlt. cbn.
    rewrite take_app_le by lia. reflexivity.
  - rewrite forward_sends by lia.
    rewrite forward_cancelled by lia. cbn.
    rewrite take_app_ge by lia. now rewrite fmap_app.
Qed.

(** ** More on the two entry points *)

Lemma drain_fair (sched : list SelectCase) :
  forall s,
  flags_sound s ->
  normalDone s && internalDone s = false ->
  picks CtxDone sched = 0 ->
  receives_needed (normalDone s) (rmed s) <= picks RecvRmed sched ->
  receives_needed (internalDone s) (internal s) <= picks RecvInternal sched ->
  snd (drain s sched) = Some None.
Proof.
  induction sched as [|c sched IH]; intros s Hs Hnb Hc Hr Hi.
  - destruct s as [rm it [] []]; cbn in *; try discriminate; lia.
  - destruct Hs as [Hn Hi']. destruct s as [rm it nd idn]. cbn in Hn, Hi', Hnb, Hr, Hi.
    destruct c; cbn in Hc, Hr, Hi; [| |discriminate Hc].
    + destruct rm as [|k ks]; cbn [drain select_step rmed internal normalDone internalDone].
      * destruct idn; [reflexivity|].
        apply IH; cbn; [split; [reflexivity|exact Hi']|reflexivity|exact Hc|lia|exact Hi].
      * destruct nd; [specialize (Hn eq_refl); discriminate Hn|].
        apply IH; cbn; [split; [discriminate|exact Hi']|exact Hnb|exact Hc| |exact Hi].
        cbn in Hr. lia.
    + destruct it as [|k ks]; cbn [drain select_step rmed internal normalDone internalDone].
      * destruct nd; [reflexivity|].
        apply IH; cbn; [split; [exact Hn|reflexivity]|reflexivity|exact Hc|exact Hr|lia].
      * destruct idn; [specialize (Hi' eq_refl); discriminate Hi'|].
        apply IH; cbn; [split; [exact Hn|discriminate]|exact Hnb|exact Hc|exact Hr|].
        cbn in Hi. lia.
Qed.

(** X13.  [GarbageCollect] returns nil under every interleaving of the two
    channels that never takes the [ctx.Done()] case and receives from each
    channel often enough to see its keys and its close; receives from a
    channel that is already closed do no harm. *)
Theorem GarbageCollect_returns_nil_without_cancel
  (rmed0 internal0 : list Key) (sched : list SelectCase) :
  gc_GC Blockstore = Ok rmed0 ->
  gc_GC PrivBlocks = Ok internal0 ->
  picks CtxDone sched = 0 ->
  length rmed0 < picks RecvRmed sched ->
  length internal0 < picks RecvInternal sched ->
  sync_returned (GarbageCollect sched) = Some None.
Proof.
  intros H1 H2 Hc Hr Hi. unfold GarbageCollect. rewrite H1, H2.
  pose proof (drain_fair sched (mkLoop rmed0 internal0 false false)) as Hd.
  destruct (drain (mkLoop rmed0 internal0 false false) sched) as [s r].
  cbn in *. apply Hd; [split; cbn; discriminate|reflexivity|exact Hc|lia|lia].
Qed.

Lemma forward_waiting (ch : list Key) (n : nat) :
  n < length ch ->
  forward ch (replicate n SendOut) = (mkKeyRemoved <$> take n ch, Waiting, []).
Proof.
  revert n. induction ch as [|k ch IH]; intros n Hn; cbn in Hn; [lia|].
  destruct n as [|n]; cbn; [reflexivity|].
  rewrite IH by lia. reflexivity.
Qed.

(** X14.  Without cancellation the goroutine of [GarbageCollectAsync]
    loses nothing and adds nothing: after the consumer has received [n]
    events, these are the first [n] of the data-domain events followed by
    the internal-domain events, and the channel is closed exactly when all
    of them were received. *)
Theorem forwarder_delivers_in_order (rmed0 internal0 : list Key) (n : nat) :
  forwarder rmed0 internal0 (replicate n SendOut)
  = if decide (length (rmed0 ++ internal0) <= n)
    then mkAsync (mkKeyRemoved <$> rmed0 ++ internal0) true true
    else mkAsync (mkKeyRemoved <$> take n (rmed0 ++ internal0)) false false.
Proof.
  unfold forwarder. rewrite length_app.
  destruct (decide (n < length rmed0)) as [Hlt|Hge].
  - rewrite forward_waiting by exact Hlt. cbn.
    rewrite decide_False by lia. now rewrite take_app_le by lia.
  - rewrite <- (app_nil_r (replicate n SendOut)).
    rewrite forward_sends by lia. rewrite app_nil_r.
    destruct (decide (n - length rmed0 < length internal0)) as [Hlt2|Hge2].
    + rewrite forward_waiting by exact Hlt2. cbn.
      rewrite decide_False by lia. rewrite take_app_ge by lia.
      now rewrite fmap_app.
    + rewrite <- (app_nil_r (replicate (n - length rmed0) SendOut)).
      rewrite forward_sends by lia. cbn.
      rewrite decide_True by lia. now rewrite fmap_app.
Qed.

(** X15.  The two entry points ask for the two domains in the same way:
    [GarbageCollectAsync] requests the data domain, then the internal
    domain only if the first request was granted, and when a request fails
    it returns no channel but the error that [GarbageCollect] returns. *)
Theorem GarbageCollectAsync_requests_as_GarbageCollect
  (asched : list ForwardCase) (sched : list SelectCase) :
  fst (GarbageCollectAsync asched) = requested (GarbageCollect sched)
  /\ match snd (GarbageCollectAsync asched) with
     | Err err =>
         sync_returned (GarbageCollect sched) = Some (Some err)
         /\ (gc_GC Blockstore = Err err -> fst (GarbageCollectAsync asched) = [Blockstore])
     | Ok run =>
         exists rmed0 internal0,
           gc_GC Blockstore = Ok rmed0 /\ gc_GC PrivBlocks = Ok internal0
           /\ run = forwarder rmed0 internal0 asched
     end.
Proof.
  unfold GarbageCollectAsync, GarbageCollect.
  destruct (gc_GC Blockstore) as [rmed0|e1]; [|cbn; auto].
  destruct (gc_GC PrivBlocks) as [internal0|e2]; cbn.
  - destruct (drain _ sched) as [s r]. cbn. split; [reflexivity|]. eauto.
  - split; [reflexivity|]. split; [reflexivity|discriminate].
Qed.

(** ** The exit paths of the forwarding goroutine *)

Lemma forwarder_exhausted (rmed0 internal0 : list Key) (n : nat) (rest : list ForwardCase) :
  length (rmed0 ++ internal0) <= n ->
  forwarder rmed0 internal0 (replicate n SendOut ++ rest)
  = mkAsync (mkKeyRemoved <$> rmed0 ++ internal0) true true.
Proof.
  intros Hn. rewrite length_app in Hn. unfold forwarder.
  rewrite forward_sends by lia. rewrite forward_sends by lia.
  cbn. now rewrite fmap_app.
Qed.

Lemma forwarder_waiting (rmed0 internal0 : list Key) (n : nat) :
  n < length (rmed0 ++ internal0) ->
  forwarder rmed0 internal0 (replicate n SendOut)
  = mkAsync (mkKeyRemoved <$> take n (rmed0 ++ internal0)) false false.
Proof.
  intros Hn. rewrite length_app in Hn. unfold forwarder.
  destruct (decide (n < length rmed0)) as [Hlt|Hge].
  - rewrite forward_waiting by exact Hlt. cbn. now rewrite take_app_le by lia.
  - rewrite <- (app_nil_r (replicate n SendOut)).
    rewrite forward_sends by lia. rewrite app_nil_r.
    rewrite forward_waiting by lia. cbn.
    rewrite take_app_ge by lia. now rewrite fmap_app.
Qed.

(** A schedule sends until everything is sent, or until it takes the
    [ctx.Done()] case, or it ends before either. *)
Lemma schedule_shape (sched : list ForwardCase) :
  forall total, exists n,
    (total <= n /\ exists rest, sched = replicate n SendOut ++ rest)
    \/ (n < total /\ exists post, sched = replicate n SendOut ++ ForwardCtxDone :: post)
    \/ (n < total /\ sched = replicate n SendOut).
Proof.
  induction sched as [|c sched IH]; intros total.
  - exists 0. destruct total; [left|right; right]; split; try lia; eauto.
  - destruct total as [|total].
    + exists 0. left. split; [lia|]. now exists (c :: sched).
    + destruct c.
      * destruct (IH total) as [n [[Hn [rest ->]]|[[Hn [post ->]]|[Hn ->]]]];
          exists (S n); [left|right; left|right; right]; split; try lia; eauto.
      * exists 0. right. left. split; [lia|]. now exists sched.
Qed.

Lemma schedule_of_any (sched : list ForwardCase) :
  exists envs, schedule_of envs = sched.
Proof.
  exists ((fun c => mkEnv true true c) <$> sched).
  unfold schedule_of. induction sched as [|c sched IH]; [reflexivity|].
  cbn. now rewrite IH.
Qed.

(** C4, as the code has it.  Whenever [GarbageCollectAsync] returns a
    channel, what its goroutine sends on it is a prefix of the data-domain
    events followed by a prefix of the internal-domain events, and an
    internal event is sent only after every data event was.  The goroutine
    leaves its body on two paths, and the channel is closed on both and only
    then: when every event of both channels was sent, and when a forwarding
    select takes the [ctx.Done()] case, in which case the event in hand is
    not sent; while a select waits, the goroutine has not exited and the
    channel is open.  A forwarding select takes the [ctx.Done()] case only
    when the context is done, always when the context is done and no
    receiver is ready, and at the pick of the runtime when both cases can
    proceed. *)
Theorem GarbageCollectAsync_order_close_cancel (envs : list SelectEnv) :
  let sched := schedule_of envs in
  match GarbageCollectAsync sched with
  | (_, Err err) => gc_GC Blockstore = Err err \/ gc_GC PrivBlocks = Err err
  | (_, Ok run) =>
      exists rmed0 internal0,
        gc_GC Blockstore = Ok rmed0 /\ gc_GC PrivBlocks = Ok internal0
        /\ (exists ks1 ks2,
              out run = (mkKeyRemoved <$> ks1) ++ (mkKeyRemoved <$> ks2)
              /\ ks1 `prefix_of` rmed0 /\ ks2 `prefix_of` internal0
              /\ (ks2 <> [] -> ks1 = rmed0))
        /\ closed run = exited run
        /\ (forall n post,
              sched = replicate n SendOut ++ ForwardCtxDone :: post ->
              n < length (rmed0 ++ internal0) ->
              out run = mkKeyRemoved <$> take n (rmed0 ++ internal0)
              /\ exited run = true /\ closed run = true)
        /\ (forall n rest,
              sched = replicate n SendOut ++ rest ->
              length (rmed0 ++ internal0) <= n ->
              out run = mkKeyRemoved <$> rmed0 ++ internal0
              /\ exited run = true /\ closed run = true)
        /\ (forall n,
              sched = replicate n SendOut ->
              n < length (rmed0 ++ internal0) ->
              out run = mkKeyRemoved <$> take n (rmed0 ++ internal0)
              /\ exited run = false /\ closed run = false)
        /\ (exists n,
              (length (rmed0 ++ internal0) <= n
               /\ exists rest, sched = replicate n SendOut ++ rest)
              \/ (n < length (rmed0 ++ internal0)
                  /\ exists post, sched = replicate n SendOut ++ ForwardCtxDone :: post)
              \/ (n < length (rmed0 ++ internal0) /\ sched = replicate n SendOut))
  end
  /\ (forall e, resolve e = Some ForwardCtxDone -> ctx_done e = true)
  /\ (forall e, ctx_done e = true -> receiver_ready e = false ->
                resolve e = Some ForwardCtxDone)
  /\ (forall e, ctx_done e = true -> receiver_ready e = true ->
                resolve e = Some (runtime_pick e)).
Proof.
  cbv zeta. split.
  - unfold GarbageCollectAsync.
    destruct (gc_GC Blockstore) as [rmed0|e1]; [|now left].
    destruct (gc_GC PrivBlocks) as [internal0|e2]; [|now right].
    exists rmed0, internal0.
    split; [reflexivity|]. split; [reflexivity|].
    split; [apply forwarder_order|].
    split; [apply forwarder_closed_iff_exited|].
    split; [intros n post -> Hn; now rewrite forwarder_cancelled|].
    split; [intros n rest -> Hn; now rewrite forwarder_exhausted|].
    split; [intros n -> Hn; now rewrite forwarder_waiting|].
    apply schedule_shape.
  - unfold resolve. repeat split; intros [[] [] pick]; cbn; congruence.
Qed.

End GC.

(** C4, as worded: at a forwarding step where the context is done the
    event would be dropped and the goroutine would exit.  With the context
    done and a receiver waiting, both cases of the select can proceed; when
    the runtime picks the send, the first event is forwarded and the
    goroutine goes on to the next. *)
Lemma GarbageCollectAsync_sends_although_context_done :
  ctx_done (mkEnv true true SendOut) = true
  /\ snd (GarbageCollectAsync nat sweeping_gc (schedule_of [mkEnv true true SendOut]))
     = Ok (mkAsync nat [mkKeyRemoved nat 1] false false).
Proof. split; reflexivity. Qed.

(** C1, as worded: a failure in one domain would not keep the other from
    being requested.  On a node whose data-domain request fails,
    [GarbageCollect] returns that error and never requests the internal
    domain, which would have been granted. *)
Lemma GarbageCollect_data_failure_skips_internal :
  failing_data_gc Blockstore = Err (errorString "mark failed")
  /\ failing_data_gc PrivBlocks = Ok [7]
  /\ requested nat (GarbageCollect nat failing_data_gc context_Canceled []) = [Blockstore]
  /\ (PrivBlocks ∉ requested nat (GarbageCollect nat failing_data_gc context_Canceled []))
  /\ sync_returned nat (GarbageCollect nat failing_data_gc context_Canceled [])
     = Some (Some (errorString "mark failed")).
Proof.
  repeat split. cbn. rewrite elem_of_cons, elem_of_nil.
  intros [H|H]; [discriminate H|exact H].
Qed.

Lemma GarbageCollect_interleaved_sample :
  sync_returned nat
    (GarbageCollect nat sweeping_gc context_Canceled
       [RecvInternal; RecvRmed; RecvInternal; RecvInternal; RecvRmed; RecvRmed;
        RecvInternal])
  = Some None.
Proof.
  apply (GarbageCollect_returns_nil_without_cancel nat sweeping_gc context_Canceled
           [1; 2] [3]); [reflexivity|reflexivity|reflexivity|cbn; lia|cbn; lia].
Defined.

Example GarbageCollect_drains_both :
  sync_returned nat
    (GarbageCollect nat sweeping_gc context_Canceled
       [RecvInternal; RecvRmed; RecvInternal; RecvRmed; RecvInternal; RecvRmed])
  = Some None.
Proof. reflexivity. Qed.

Example GarbageCollect_spins_on_closed_channel :
  sync_returned nat
    (GarbageCollect nat sweeping_gc context_Canceled
       [RecvInternal; RecvInternal; RecvInternal; RecvInternal])
  = None.
Proof. reflexivity. Qed.

Example GarbageCollectAsync_cancelled_at_second_event :
  snd (GarbageCollectAsync nat sweeping_gc [SendOut; ForwardCtxDone; SendOut])
  = Ok (mkAsync nat [mkKeyRemoved nat 1] true true).
Proof. reflexivity. Qed.

Example GarbageCollectAsync_all_forwarded :
  snd (GarbageCollectAsync nat sweeping_gc [SendOut; SendOut; SendOut])
  = Ok (mkAsync nat [mkKeyRemoved nat 1; mkKeyRemoved nat 2; mkKeyRemoved nat 3]
          true true).
Proof. reflexivity. Qed.

Example GarbageCollectAsync_consumer_gone :
  snd (GarbageCollectAsync nat sweeping_gc [SendOut])
  = Ok (mkAsync nat [mkKeyRemoved nat 1] false false).
Proof. reflexivity. Qed.

End corerepo.

(** * Command add: the ingestion pipeline *)
Module add.

(** How many bytes of progress to wait before sending a progress update
    message. *)
Definition progressReaderIncrement : Z := 1024 * 256.

(** [type AddedObject struct { Name string; Hash string; Bytes int64 }] *)
Record AddedObject : Type := mkAddedObject {
  Name : string;
  Hash : string;
  Bytes : Z
}.

(** [files.File], as [addFile] and [addDir] use it: its name, whether it is
    a directory, and the successive results of [NextFile()], a file that may
    be nil and an error that may be nil.  After the listed results
    [NextFile()] returns [(nil, io.EOF)]. *)
#[local] Unset Elimination Schemes.
Inductive File : Type :=
| mkFile (fileName : string) (isDirectory : bool)
         (nextFiles : list (option File * option error)).
#[local] Set Elimination Schemes.

Definition FileName (f : File) : string :=
  match f with mkFile name _ _ => name end.
Definition IsDirectory (f : File) : bool :=
  match f with mkFile _ d _ => d end.
Definition NextFiles (f : File) : list (option File * option error) :=
  match f with mkFile _ _ l => l end.

(** Induction on the file tree: a property holds of a file when it holds of
    every file that its [NextFile()] returns. *)
Definition File_ind (P : File -> Prop)
  (step : forall name dir nexts,
      Forall (fun x => match fst x with Some f => P f | None => True end) nexts ->
      P (mkFile name dir nexts))
  : forall f, P f :=
  fix go (f : File) : P f :=
    match f with
    | mkFile name dir nexts =>
        step name dir nexts
          ((fix all (l : list (option File * option error))
              : Forall (fun x => match fst x with Some f => P f | None => True end) l :=
              match l with
              | [] => List.Forall_nil _
              | x :: l' =>
                  @List.Forall_cons _ _ x l'
                    (match x as x0
                       return match fst x0 with Some f => P f | None => True end
                     with
                     | (Some f', _) => go f'
                     | (None, _) => I
                     end)
                    (all l')
              end) nexts)
    end.

(** The two block stores of a node that carry a pin lock. *)
Inductive Domain : Type := DataBlocks | StateBlocks.

(** The pin modes of package pin. *)
Inductive PinMode : Type := Recursive | Direct | Indirect.

(** [int64] arithmetic wraps around. *)
Definition int64 (z : Z) : Z := ((z + 2 ^ 63) mod 2 ^ 64 - 2 ^ 63)%Z.

(** [err != nil && err != io.EOF] *)
Definition fatal (err : option error) : bool :=
  match err with
  | None => false
  | Some e => negb (is_EOF e)
  end.

(** [err == io.EOF] on an error that may be nil. *)
Definition at_EOF (err : option error) : bool :=
  match err with
  | None => false
  | Some e => is_EOF e
  end.

(** [_, name := path.Split(p)]: what follows the final slash. *)
Definition path_base (p : string) : string :=
  List.last (Split p "/"%char) EmptyString.

(** [type progressReader struct { file; out; bytes; lastProgress }]; the
    channel [out] is the trace of the run. *)
Record progressReader : Type := mkProgressReader {
  file : File;
  bytes : Z;
  lastProgress : Z
}.

(** [progressReader.Read], given what [i.file.Read(p)] returned: the reader
    afterwards and the record sent on [out], if any.  The method returns the
    [(n, err)] it was given. *)
Definition Read (i : progressReader) (n : Z) (err : option error)
  : progressReader * option AddedObject :=
  let bytes' := int64 (bytes i + int64 n) in
  if (progressReaderIncrement <=? int64 (bytes' - lastProgress i))%Z || at_EOF err
  then (mkProgressReader (file i) bytes' bytes',
        Some (mkAddedObject (FileName (file i)) EmptyString bytes'))
  else (mkProgressReader (file i) bytes' (lastProgress i), None).

(** A sequence of reads through one progress reader: the records sent. *)
Fixpoint read_all (i : progressReader) (reads : list (Z * option error))
  : list AddedObject :=
  match reads with
  | [] => []
  | (n, err) :: reads' =>
      let '(i', sent) := Read i n err in
      match sent with
      | Some o => o :: read_all i' reads'
      | None => read_all i' reads'
      end
  end.

(** The progress records as the specification words them, over unbounded
    integers: [total] is the cumulative byte count, [since] the bytes read
    since the last record; a record is due when [since] has reached
    [threshold], and at end-of-stream. *)
Fixpoint progress_due (threshold : Z) (name : string) (total since : Z)
  (reads : list (Z * option error)) : list AddedObject :=
  match reads with
  | [] => []
  | (n, err) :: reads' =>
      let total' := (total + n)%Z in
      let since' := (since + n)%Z in
      if (threshold <=? since')%Z || at_EOF err
      then mkAddedObject name EmptyString total'
           :: progress_due threshold name total' 0%Z reads'
      else progress_due threshold name total' since' reads'
  end.

(** The same with a record due only when [since] exceeds [threshold]. *)
Fixpoint progress_due_strict (threshold : Z) (name : string) (total since : Z)
  (reads : list (Z * option error)) : list AddedObject :=
  match reads with
  | [] => []
  | (n, err) :: reads' =>
      let total' := (total + n)%Z in
      let since' := (since + n)%Z in
      if (threshold <? since')%Z || at_EOF err
      then mkAddedObject name EmptyString total'
           :: progress_due_strict threshold name total' 0%Z reads'
      else progress_due_strict threshold name total' since' reads'
  end.

(** The byte counts of a sequence of reads are those of a Go [Read]: never
    negative, and their sum fits an [int64]. *)
Fixpoint total_read (reads : list (Z * option error)) : Z :=
  match reads with
  | [] => 0%Z
  | (n, _) :: reads' => (n + total_read reads')%Z
  end.

(** The reads of a sequence that return end-of-stream. *)
Fixpoint eof_reads (reads : list (Z * option error)) : nat :=
  match reads with
  | [] => 0
  | (_, err) :: reads' => (if at_EOF err then 1 else 0) + eof_reads reads'
  end.

Definition counts_ok (reads : list (Z * option error)) : Prop :=
  Forall (fun r => (0 <= fst r)%Z) reads /\ (total_read reads < 2 ^ 63)%Z.

(** The names of the options. *)
Definition quietOptionName : string := "quiet".
Definition progressOptionName : string := "progress".
Definition trickleOptionName : string := "trickle".
Definition wrapOptionName : string := "wrap-with-directory".
Definition hiddenOptionName : string := "hidden".
Definition onlyHashOptionName : string := "only-hash".

(** A request whose options are a map from names to booleans. *)
Definition sample_Option_Bool (req : gmap string bool) (name : string)
  : bool * bool * option error :=
  match req !! name with
  | Some b => (b, true, None)
  | None => (false, false, None)
  end.
Definition sample_SetOption (req : gmap string bool) (name : string) (v : bool)
  : gmap string bool :=
  <[name := v]> req.

(** What the importer does with the reader it is given: it reads from it,
    and writes nodes through the DAG service. *)
Inductive ImporterStep (Node : Type) : Type :=
| ReadStep (n : Z) (err : option error)
| WriteStep (nd : Node).
Arguments ReadStep {Node} n err.
Arguments WriteStep {Node} nd.

(** ** A small world for examples

    Nodes are numbered, 0 the node of the invocation and 1 the node over a
    nil repository; a DAG node is its data and the names of its links; a
    file is hidden when its base name starts with a dot; the importer reads
    300 bytes and then end-of-stream and writes one node, but fails on the
    file named [broken]. *)
Definition sample_Node : Type := string * list string.

Definition sample_IsHidden (f : File) : bool :=
  let name := path_base (FileName f) in
  (String.prefix "." name) && (1 <? String.length name)%nat.

Definition sample_Build (n : nat) (f : File)
  : list (ImporterStep sample_Node) * result sample_Node :=
  if String.eqb (FileName f) "broken"
  then ([ReadStep 0 (Some (errorString "read failed"))],
        Err (errorString "read failed"))
  else ([ReadStep 300 None; ReadStep 0 (Some io_EOF); WriteStep (FileName f, [])],
        Ok (FileName f, [])).

Definition sample_FolderNode : sample_Node := ("folder", []).

Definition sample_AddNodeLink (tree : sample_Node) (name : string) (nd : sample_Node)
  : result sample_Node :=
  Ok (fst tree, snd tree ++ [name]).

Definition sample_Key (nd : sample_Node) : result string := Ok ("key-" +:+ fst nd).
Definition sample_getOutput (nd : sample_Node) : result string := Ok ("Qm-" +:+ fst nd).
Definition sample_DAG_Add (n : nat) (nd : sample_Node) : result string := sample_Key nd.
Definition sample_Flush (n : nat) : result unit := Ok tt.
Definition sample_NilRepo (n : nat) : result nat := Ok 1%nat.

Definition sample_full_DAG_Add (n : nat) (nd : sample_Node) : result string :=
  Err (errorString "no space left").
Definition sample_no_IsHidden (f : File) : bool := false.

(** The importer on an empty file: the first read returns end-of-stream. *)
Definition sample_Build_empty (n : nat) (f : File)
  : list (ImporterStep sample_Node) * result sample_Node :=
  ([ReadStep 0 (Some io_EOF); WriteStep (FileName f, [])], Ok (FileName f, [])).
Definition file_empty : File := mkFile "dir/empty" false [].

Definition file_a : File := mkFile "dir/a.txt" false [].
Definition file_hidden : File := mkFile "dir/.git" false [].
Definition file_broken : File := mkFile "broken" false [].
Definition file_c : File := mkFile "dir/c.txt" false [].

Section Pipeline.

(** [core.IpfsNode], [dag.Node] and [key.Key]. *)
Variables IpfsNode Node Key : Type.

(** What a run of the command does to the world, in order. *)
Inductive Event : Type :=
| PinLock (n : IpfsNode) (d : Domain)
| Unlock (n : IpfsNode) (d : Domain)
| DagAdd (n : IpfsNode) (nd : Node)
| Send (o : AddedObject)
| PinWithMode (n : IpfsNode) (k : Key) (mode : PinMode)
| Flush (n : IpfsNode)
| Close.

(** A computation that leaves a trace and returns a value or an error. *)
Definition M (A : Type) : Type := list Event * result A.

Definition ret {A : Type} (a : A) : M A := ([], Ok a).
Definition fail {A : Type} (e : error) : M A := ([], Err e).
Definition lift {A : Type} (r : result A) : M A := ([], r).
Definition emit (ev : Event) : M unit := ([ev], Ok tt).

Definition bind {A B : Type} (m : M A) (k : A -> M B) : M B :=
  match m with
  | (t, Ok a) => let '(t', r) := k a in (t ++ t', r)
  | (t, Err e) => (t, Err e)
  end.

(** [defer f()]: the call runs when the body is left, however it is left. *)
Definition defer {A : Type} (ev : Event) (body : M A) : M A :=
  (fst body ++ [ev], snd body).

(** [files.IsHidden] *)
Variable IsHidden : File -> bool.

(** [importer.BuildDagFromReader] and [importer.BuildTrickleDagFromReader]
    over the DAG service of a node and a reader of a file: the reads and
    writes they make, in order, and the node or error they return. *)
Variable BuildDagFromReader : IpfsNode -> File -> list (ImporterStep Node) * result Node.
Variable BuildTrickleDagFromReader : IpfsNode -> File -> list (ImporterStep Node) * result Node.

(** [&dag.Node{Data: ft.FolderPBData()}] and [tree.AddNodeLink(name, node)],
    which returns the tree with the link or an error. *)
Variable FolderNode : Node.
Variable AddNodeLink : Node -> string -> Node -> result Node.

(** [dn.Key()], and the hash of [getOutput(dn)]. *)
Variable Node_Key : Node -> result Key.
Variable getOutput : Node -> result string.

(** [n.DAG.Add(nd)] and [n.Pinning.Flush()]. *)
Variable DAG_Add : IpfsNode -> Node -> result Key.
Variable Pinning_Flush : IpfsNode -> result unit.

(** [core.NewNodeBuilder().NilRepo().Build(n.Context())]: a node over a
    repository that keeps nothing. *)
Variable NilRepo_Build : IpfsNode -> result IpfsNode.

(** [type adder struct { node; out; progress; hidden; trickle }] *)
Record adder : Type := mkAdder {
  node : IpfsNode;
  progress : bool;
  hidden : bool;
  trickle : bool
}.

(** The [io.Reader] handed to the importer: the file itself, or a progress
    reader around it. *)
Inductive Reader : Type :=
| FileReader (f : File)
| ProgressReader (i : progressReader).

Definition reader_file (r : Reader) : File :=
  match r with
  | FileReader f => f
  | ProgressReader i => file i
  end.

(** One step of the importer on node [n] with reader [r]. *)
Definition importer_step (n : IpfsNode) (r : Reader) (st : ImporterStep Node)
  : Reader * list Event :=
  match st with
  | WriteStep nd => (r, [DagAdd n nd])
  | ReadStep k err =>
      match r with
      | FileReader f => (r, [])
      | ProgressReader i =>
          let '(i', sent) := Read i k err in
          (ProgressReader i', match sent with Some o => [Send o] | None => [] end)
      end
  end.

Fixpoint importer_steps (n : IpfsNode) (r : Reader) (sts : list (ImporterStep Node))
  : list Event :=
  match sts with
  | [] => []
  | st :: sts' =>
      let '(r', evs) := importer_step n r st in
      evs ++ importer_steps n r' sts'
  end.

(** [add]: perform the actual add, with either layout. *)
Definition add (n : IpfsNode) (reader : Reader) (useTrickle : bool) : M Node :=
  let '(sts, r) :=
    if useTrickle then BuildTrickleDagFromReader n (reader_file reader)
    else BuildDagFromReader n (reader_file reader) in
  (importer_steps n reader sts, r).

(** [outputDagnode]: sends dagnode info over the output channel. *)
Definition outputDagnode (name : string) (dn : Node) : M unit :=
  bind (lift (getOutput dn)) (fun h =>
  emit (Send (mkAddedObject name h 0%Z))).

(** The words of the two functions are shared by a fixpoint on the file
    tree: [rec] stands for [params.addFile]. *)
Section Bodies.

Variable params : adder.
Variable rec : File -> M Node.

(** The [for] loop of [addDir] on the results of [NextFile()] that are
    still to come, with the tree built so far. *)
Fixpoint addDir_loop (tree : Node) (nexts : list (option File * option error))
  : M Node :=
  match nexts with
  | [] => ret tree
  | (f, err) :: rest =>
      if fatal err then
        match err with Some e => fail e | None => ret tree end
      else
        match f with
        | None => ret tree
        | Some child =>
            match rec child with
            | (t, Err e) =>
                if is_hiddenFileError e
                then let '(t', r) := addDir_loop tree rest in (t ++ t', r)
                else (t, Err e)
            | (t, Ok nd) =>
                match AddNodeLink tree (path_base (FileName child)) nd with
                | Err e => (t, Err e)
                | Ok tree' =>
                    let '(t', r) := addDir_loop tree' rest in (t ++ t', r)
                end
            end
        end
  end.

(** What [addDir] does once the loop is left by [break]. *)
Definition addDir_finish (name : string) (tree : Node) : M Node :=
  bind (outputDagnode name tree) (fun _ =>
  bind (emit (DagAdd (node params) tree)) (fun _ =>
  bind (lift (DAG_Add (node params) tree)) (fun _ =>
  ret tree))).

Definition addDir_body (name : string) (nexts : list (option File * option error))
  : M Node :=
  bind (addDir_loop FolderNode nexts) (addDir_finish name).

(** What [addFile] does with a file that is no directory. *)
Definition addFile_plain (f : File) : M Node :=
  let reader :=
    if progress params then ProgressReader (mkProgressReader f 0%Z 0%Z)
    else FileReader f in
  bind (add (node params) reader (trickle params)) (fun dagnode =>
  bind (outputDagnode (FileName f) dagnode) (fun _ =>
  ret dagnode)).

End Bodies.

(** [addFile]: add the given file while respecting the params. *)
Fixpoint addFile (params : adder) (f : File) {struct f} : M Node :=
  if IsHidden f && negb (hidden params)
  then fail (hiddenFileError (FileName f))
  else
    match f with
    | mkFile name dir nexts =>
        if dir then addDir_body params (addFile params) name nexts
        else addFile_plain params f
    end.

(** [addDir] *)
Definition addDir (params : adder) (f : File) : M Node :=
  addDir_body params (addFile params) (FileName f) (NextFiles f).

(** The closure [addSingleFile] of [Run] over the node [n] and the option
    [hash]. *)
Definition addSingleFile (n : IpfsNode) (progress hidden trickle hash : bool)
  (f : File) : M unit :=
  bind (emit (PinLock n DataBlocks)) (fun _ =>
  defer (Unlock n DataBlocks) (
  bind (emit (PinLock n StateBlocks)) (fun _ =>
  defer (Unlock n StateBlocks) (
  let addParams := mkAdder n progress hidden trickle in
  bind (addFile addParams f) (fun rootnd =>
  bind (lift (Node_Key rootnd)) (fun rnk =>
  if negb hash then
    bind (emit (PinWithMode n rnk Recursive)) (fun _ =>
    bind (emit (Flush n)) (fun _ =>
    lift (Pinning_Flush n)))
  else ret tt)))))).

(** The closure [addFilesSeparately]: each file of the slice on its own. *)
Fixpoint addFilesSeparately_loop (n : IpfsNode) (progress hidden trickle hash : bool)
  (nexts : list (option File * option error)) : M unit :=
  match nexts with
  | [] => ret tt
  | (f, err) :: rest =>
      if fatal err then
        match err with Some e => fail e | None => ret tt end
      else
        match f with
        | None => ret tt
        | Some file =>
            bind (addSingleFile n progress hidden trickle hash file) (fun _ =>
            addFilesSeparately_loop n progress hidden trickle hash rest)
        end
  end.

Definition addFilesSeparately (n : IpfsNode) (progress hidden trickle hash : bool)
  (sliceFile : File) : M unit :=
  addFilesSeparately_loop n progress hidden trickle hash (NextFiles sliceFile).

(** The node that [Run] adds to: the node of the invocation, or with
    [only-hash] a node built over a nil repository. *)
Definition add_node (n : IpfsNode) (hash : bool) : result IpfsNode :=
  if hash then NilRepo_Build n else Ok n.

(** [Run]: with the node of the invocation (or the error of [GetNode]), the
    options and the files of the request, the trace of the command and the
    error set on the response.  The output channel is closed when the
    goroutine ends. *)
Definition Run (getNode : result IpfsNode)
  (progress trickle wrap hash hidden : bool) (files : File) : M unit :=
  bind (lift getNode) (fun n =>
  bind (lift (add_node n hash)) (fun n =>
  defer Close (
    if wrap then addSingleFile n progress hidden trickle hash files
    else addFilesSeparately n progress hidden trickle hash files))).

(** ** Records and events *)

(** A completion record, as [outputDagnode] builds it: the hash of a node,
    bytes left at zero.  A progress record, as [progressReader.Read] builds
    it: the byte count, hash left empty. *)
Definition completion_record (o : AddedObject) : Prop :=
  (exists dn, getOutput dn = Ok (Hash o)) /\ Bytes o = 0%Z.

Definition progress_record (o : AddedObject) : Prop :=
  Hash o = EmptyString.

(** Both fields hold a value other than the zero value of their type. *)
Definition both_set (o : AddedObject) : Prop :=
  Hash o <> EmptyString /\ Bytes o <> 0%Z.

(** The events of building a tree on node [n]: writes through the DAG
    service of [n], and records on the output channel. *)
Definition tree_event (n : IpfsNode) (ev : Event) : Prop :=
  match ev with
  | DagAdd m _ => m = n
  | Send o => completion_record o \/ progress_record o
  | _ => False
  end.

Definition lock_event (ev : Event) : Prop :=
  match ev with
  | PinLock _ _ | Unlock _ _ => True
  | _ => False
  end.

Definition pin_event (ev : Event) : Prop :=
  match ev with
  | PinWithMode _ _ _ | Flush _ => True
  | _ => False
  end.

(** Every node an event names is [n]. *)
Definition on_node (n : IpfsNode) (ev : Event) : Prop :=
  match ev with
  | PinLock m _ | Unlock m _ | DagAdd m _ | PinWithMode m _ _ | Flush m => m = n
  | Send _ | Close => True
  end.

(** What is sent on the output channel is well formed. *)
Definition sends_ok (ev : Event) : Prop :=
  match ev with
  | Send o => (completion_record o \/ progress_record o) /\ ~ both_set o
  | _ => True
  end.

(** The pin and the flush that follow the tree of one top-level item. *)
Definition pins_after (n : IpfsNode) (hash : bool) (r : result Node) : list Event :=
  match r with
  | Err _ => []
  | Ok rootnd =>
      match Node_Key rootnd with
      | Err _ => []
      | Ok rnk => if hash then [] else [PinWithMode n rnk Recursive; Flush n]
      end
  end.

(** The request of the command, as [PreRun] and [Run] use it:
    [req.Option(name).Bool()] gives the value, whether the option was found,
    and an error; [req.SetOption(name, value)] gives the request with the
    option set. *)
Variable Req : Type.
Variable Option_Bool : Req -> string -> bool * bool * option error.
Variable SetOption : Req -> string -> bool -> Req.

(** [v, _, _ := req.Option(name).Bool()] *)
Definition option_value (req : Req) (name : string) : bool :=
  fst (fst (Option_Bool req name)).

(** [PreRun]: with the size of the files of the request ([None] when they
    are no [files.SizeFile], an error when [Size()] fails) and the map
    [req.Values()], the request and the map afterwards.  It returns nil on
    every path. *)
Definition PreRun (req : Req) (size : option (result Z)) (values : gmap string Z)
  : Req * gmap string Z :=
  if option_value req quietOptionName then (req, values)
  else
    let req := SetOption req progressOptionName true in
    match size with
    | Some (Ok size) => (req, <["size" := size]> values)
    | Some (Err _) | None => (req, values)
    end.

(** [Run] on a request: the options it reads, then [Run] above. *)
Definition Run_request (req : Req) (getNode : result IpfsNode) (files : File) : M unit :=
  Run getNode
    (option_value req progressOptionName)
    (option_value req trickleOptionName)
    (option_value req wrapOptionName)
    (option_value req onlyHashOptionName)
    (option_value req hiddenOptionName)
    files.


(** ** The monad *)

Lemma fst_bind {A B : Type} (m : M A) (k : A -> M B) :
  fst (bind m k)
  = fst m ++ match snd m with Ok a => fst (k a) | Err _ => [] end.
Proof.
  destruct m as [t [a|e]]; cbn.
  - now destruct (k a).
  - now rewrite app_nil_r.
Qed.

Lemma snd_bind {A B : Type} (m : M A) (k : A -> M B) :
  snd (bind m k) = match snd m with Ok a => snd (k a) | Err e => Err e end.
Proof. destruct m as [t [a|e]]; cbn; [now destruct (k a)|reflexivity]. Qed.

Lemma Forall_fst_bind {A B : Type} (P : Event -> Prop) (m : M A) (k : A -> M B) :
  Forall P (fst m) -> (forall a, Forall P (fst (k a))) -> Forall P (fst (bind m k)).
Proof.
  intros Hm Hk. rewrite fst_bind. apply Forall_app. split; [exact Hm|].
  destruct (snd m); [apply Hk|constructor].
Qed.

Lemma addFile_unfold (params : adder) (f : File) :
  addFile params f
  = if IsHidden f && negb (hidden params)
    then fail (hiddenFileError (FileName f))
    else if IsDirectory f then addDir params f else addFile_plain params f.
Proof. destruct f as [name dir nexts]. reflexivity. Qed.

(** ** The progress reader *)

Lemma Forall_nonneg_total (reads : list (Z * option error)) :
  Forall (fun r => (0 <= fst r)%Z) reads -> (0 <= total_read reads)%Z.
Proof. induction 1 as [|[n err] reads Hn _ IH]; cbn in *; lia. Qed.

Lemma int64_small (z : Z) : (- 2 ^ 63 <= z < 2 ^ 63)%Z -> int64 z = z.
Proof. intros Hz. unfold int64. rewrite Z.mod_small; lia. Qed.

Lemma Read_sends_progress (i i' : progressReader) (n : Z) (err : option error)
  (o : AddedObject) :
  Read i n err = (i', Some o) -> progress_record o /\ Name o = FileName (file i).
Proof.
  unfold Read. destruct (_ || _); intros [= <- <-]. now split.
Qed.

Lemma Read_file (i : progressReader) (n : Z) (err : option error) :
  file (fst (Read i n err)) = file i.
Proof. unfold Read. now destruct (_ || _). Qed.

(** ** The events of building a tree *)

Lemma importer_steps_events (n : IpfsNode) (sts : list (ImporterStep Node)) :
  forall r, Forall (tree_event n) (importer_steps n r sts).
Proof.
  induction sts as [|st sts IH]; intros r; cbn; [constructor|].
  destruct st as [k err|nd]; cbn.
  - destruct r as [f|i]; cbn; [apply IH|].
    destruct (Read i k err) as [i' [o|]] eqn:HR; cbn; [|apply IH].
    constructor; [|apply IH]. right. exact (proj1 (Read_sends_progress _ _ _ _ _ HR)).
  - constructor; [reflexivity|apply IH].
Qed.

Lemma add_events (n : IpfsNode) (r : Reader) (useTrickle : bool) :
  Forall (tree_event n) (fst (add n r useTrickle)).
Proof.
  unfold add.
  destruct (if useTrickle then _ else _) as [sts res]. apply importer_steps_events.
Qed.

Lemma outputDagnode_events (n : IpfsNode) (name : string) (dn : Node) :
  Forall (tree_event n) (fst (outputDagnode name dn)).
Proof.
  unfold outputDagnode, lift, emit, bind.
  destruct (getOutput dn) as [h|e] eqn:Hh; cbn; [|constructor].
  constructor; [|constructor]. left. split; [now exists dn|reflexivity].
Qed.

Lemma addDir_finish_events (params : adder) (name : string) (tree : Node) :
  Forall (tree_event (node params)) (fst (addDir_finish params name tree)).
Proof.
  unfold addDir_finish. apply Forall_fst_bind; [apply outputDagnode_events|].
  intros _. apply Forall_fst_bind; [repeat constructor|].
  intros _. apply Forall_fst_bind; [constructor|]. intros _. constructor.
Qed.

Lemma addDir_loop_events (params : adder) (rec : File -> M Node)
  (nexts : list (option File * option error)) :
  Forall (fun x => match fst x with
                   | Some f => Forall (tree_event (node params)) (fst (rec f))
                   | None => True
                   end) nexts ->
  forall tree, Forall (tree_event (node params)) (fst (addDir_loop rec tree nexts)).
Proof.
  induction 1 as [|[f err] rest Hx _ IH]; intros tree; cbn; [constructor|].
  destruct (fatal err); [destruct err; constructor|].
  destruct f as [child|]; [|constructor]. cbn in Hx.
  destruct (rec child) as [t [nd|e]]; cbn in Hx.
  - destruct (AddNodeLink tree _ nd) as [tree'|e]; [|exact Hx].
    specialize (IH tree'). destruct (addDir_loop rec tree' rest) as [t' r].
    cbn in *. apply Forall_app. now split.
  - destruct (is_hiddenFileError e); [|exact Hx].
    specialize (IH tree). destruct (addDir_loop rec tree rest) as [t' r].
    cbn in *. apply Forall_app. now split.
Qed.

(** Building a tree locks nothing and pins nothing: every event of
    [addFile] is a write through the DAG service of the adder's node or a
    record on the output channel. *)
Lemma addFile_events (params : adder) (f : File) :
  Forall (tree_event (node params)) (fst (addFile params f)).
Proof.
  induction f as [name dir nexts IH] using File_ind.
  rewrite addFile_unfold.
  destruct (IsHidden _ && negb (hidden params)); [constructor|].
  cbn [IsDirectory]. destruct dir.
  - unfold addDir, addDir_body. cbn [FileName NextFiles].
    apply Forall_fst_bind; [now apply addDir_loop_events|].
    intros tree. apply addDir_finish_events.
  - unfold addFile_plain. apply Forall_fst_bind; [apply add_events|].
    intros dn. apply Forall_fst_bind; [apply outputDagnode_events|].
    intros _. constructor.
Qed.

Lemma tree_event_sends_ok (n : IpfsNode) (ev : Event) :
  tree_event n ev -> sends_ok ev.
Proof.
  destruct ev as [| | |o| | |]; cbn; try tauto.
  intros H. split; [exact H|]. intros [Hh Hb].
  destruct H as [[_ Hz]|Hp]; [now apply Hb|now apply Hh].
Qed.

Lemma tree_event_no_lock_no_pin (n : IpfsNode) (ev : Event) :
  tree_event n ev -> ~ lock_event ev /\ ~ pin_event ev /\ on_node n ev.
Proof. destruct ev; cbn; tauto. Qed.

(** ** One top-level add *)

Lemma addSingleFile_trace (n : IpfsNode) (progress hidden trickle hash : bool) (f : File) :
  let built := addFile (mkAdder n progress hidden trickle) f in
  fst (addSingleFile n progress hidden trickle hash f)
  = [PinLock n DataBlocks; PinLock n StateBlocks]
    ++ (fst built ++ pins_after n hash (snd built))
    ++ [Unlock n StateBlocks; Unlock n DataBlocks].
Proof.
  cbv zeta. unfold addSingleFile, pins_after, bind, defer, emit, lift, ret.
  destruct (addFile _ f) as [t [rootnd|e]]; cbn;
    [destruct (Node_Key rootnd) as [rnk|e]; cbn;
     [destruct hash; cbn; [|destruct (Pinning_Flush n)]|]|];
    cbn; rewrite <- ?app_assoc; cbn; rewrite ?app_nil_r; reflexivity.
Qed.

Lemma addSingleFile_result (n : IpfsNode) (progress hidden trickle hash : bool) (f : File) :
  snd (addSingleFile n progress hidden trickle hash f)
  = match snd (addFile (mkAdder n progress hidden trickle) f) with
    | Err e => Err e
    | Ok rootnd =>
        match Node_Key rootnd with
        | Err e => Err e
        | Ok _ => if hash then Ok tt else Pinning_Flush n
        end
    end.
Proof.
  unfold addSingleFile, bind, defer, emit, lift, ret.
  destruct (addFile _ f) as [t [rootnd|e]]; cbn;
    [destruct (Node_Key rootnd) as [rnk|e]; cbn;
     [destruct hash; cbn; [|destruct (Pinning_Flush n)]|]|];
    reflexivity.
Qed.

Lemma pins_after_no_lock (n : IpfsNode) (hash : bool) (r : result Node) :
  Forall (fun ev => ~ lock_event ev /\ sends_ok ev) (pins_after n hash r).
Proof.
  unfold pins_after. destruct r as [rootnd|e]; [|constructor].
  destruct (Node_Key rootnd); [|constructor].
  destruct hash; repeat constructor; cbn; tauto.
Qed.

(** In [l1 ++ m ++ l2], an element that occurs in neither [l1] nor [l2]
    has all of [l1] before it and all of [l2] after it. *)
Lemma app_prefix_before {A : Type} (x : A) (l1 : list A) :
  forall rest before after,
  l1 ++ rest = before ++ x :: after -> x ∉ l1 ->
  exists before', before = l1 ++ before'.
Proof.
  induction l1 as [|a l1 IH]; intros rest before after Heq Hx; [now exists before|].
  destruct before as [|b before']; cbn in Heq.
  - injection Heq as -> _. exfalso. apply Hx. apply elem_of_cons. now left.
  - injection Heq as -> Heq.
    destruct (IH rest before' after Heq) as [b' ->].
    + intros Hin. apply Hx. apply elem_of_cons. now right.
    + now exists b'.
Qed.

Lemma app_suffix_after {A : Type} (x : A) (l2 : list A) :
  forall before l after,
  l ++ l2 = before ++ x :: after -> x ∉ l2 ->
  exists after', after = after' ++ l2.
Proof.
  induction before as [|b before IH]; intros l after Heq Hx; cbn in Heq.
  - destruct l as [|a l']; cbn in Heq.
    + exfalso. apply Hx. rewrite Heq. apply elem_of_cons. now left.
    + injection Heq as _ Heq. now exists l'.
  - destruct l as [|a l']; cbn in Heq.
    + exfalso. apply Hx. rewrite Heq. apply elem_of_cons. right.
      apply elem_of_app. right. apply elem_of_cons. now left.
    + injection Heq as _ Heq. exact (IH l' after Heq Hx).
Qed.

(** C2.  One top-level add takes the pin lock of the data block store and
    then of the state block store before it does anything else, and releases
    both, in the reverse order, as the last thing it does, whatever it
    returns; nothing in between locks or unlocks, so every write through the
    DAG service happens after both locks were taken and before either is
    released. *)
Theorem addSingleFile_locks_held_throughout
  (n : IpfsNode) (progress hidden trickle hash : bool) (f : File) :
  let trace := fst (addSingleFile n progress hidden trickle hash f) in
  (exists body,
      trace = [PinLock n DataBlocks; PinLock n StateBlocks] ++ body
              ++ [Unlock n StateBlocks; Unlock n DataBlocks]
      /\ Forall (fun ev => ~ lock_event ev) body)
  /\ (forall before m nd after,
        trace = before ++ DagAdd m nd :: after ->
        (exists b, before = [PinLock n DataBlocks; PinLock n StateBlocks] ++ b)
        /\ (exists a, after = a ++ [Unlock n StateBlocks; Unlock n DataBlocks])).
Proof.
  cbv zeta. rewrite addSingleFile_trace. cbv zeta. split.
  - eexists. split; [reflexivity|]. apply Forall_app. split.
    + eapply Forall_impl; [apply addFile_events|].
      intros ev Hev. now apply tree_event_no_lock_no_pin in Hev.
    + eapply Forall_impl; [apply pins_after_no_lock|]. now intros ev [H _].
  - intros before m nd after Heq. split.
    + eapply app_prefix_before; [exact Heq|].
      rewrite !elem_of_cons, elem_of_nil. intros [H|[H|H]]; [discriminate..|exact H].
    + rewrite app_assoc in Heq. eapply app_suffix_after; [exact Heq|].
      rewrite !elem_of_cons, elem_of_nil. intros [H|[H|H]]; [discriminate..|exact H].
Qed.

(** C3.  When the tree of a top-level item was built and its root has a
    key, the add, still between the locks and the unlocks, pins the root key
    recursively and flushes the pin set when [only-hash] is unset, and does
    neither when it is set; building the tree itself pins and flushes
    nothing and writes only through the DAG service of the node the add runs
    on, which with [only-hash] is the node built over a nil repository. *)
Theorem addSingleFile_pins_unless_only_hash
  (n0 n : IpfsNode) (progress hidden trickle hash : bool) (f : File)
  (t : list Event) (rootnd : Node) (rnk : Key) :
  add_node n0 hash = Ok n ->
  addFile (mkAdder n progress hidden trickle) f = (t, Ok rootnd) ->
  Node_Key rootnd = Ok rnk ->
  fst (addSingleFile n progress hidden trickle hash f)
  = [PinLock n DataBlocks; PinLock n StateBlocks]
    ++ t ++ (if hash then [] else [PinWithMode n rnk Recursive; Flush n])
    ++ [Unlock n StateBlocks; Unlock n DataBlocks]
  /\ snd (addSingleFile n progress hidden trickle hash f)
     = (if hash then Ok tt else Pinning_Flush n)
  /\ Forall (fun ev => ~ pin_event ev /\ on_node n ev) t
  /\ (if hash then NilRepo_Build n0 = Ok n else n = n0).
Proof.
  intros Hn Hf Hk. repeat split.
  - rewrite addSingleFile_trace. cbv zeta. rewrite Hf. cbn [fst snd pins_after].
    rewrite Hk. now rewrite <- app_assoc.
  - rewrite addSingleFile_result, Hf. cbn [snd]. now rewrite Hk.
  - pose proof (addFile_events (mkAdder n progress hidden trickle) f) as Hev.
    rewrite Hf in Hev. cbn in Hev. eapply Forall_impl; [exact Hev|].
    intros ev H. now apply tree_event_no_lock_no_pin in H.
  - unfold add_node in Hn. destruct hash; [exact Hn|]. now injection Hn.
Qed.

(** ** Directories *)

Lemma addFile_hidden (params : adder) (f : File) :
  hidden params = false -> IsHidden f = true ->
  addFile params f = ([], Err (hiddenFileError (FileName f))).
Proof. intros Hh Hf. rewrite addFile_unfold, Hh, Hf. reflexivity. Qed.

(** Two continuations of the loop that agree from every tree agree after
    any common prefix of results. *)
Lemma addDir_loop_app_agree (rec : File -> M Node)
  (pre l1 l2 : list (option File * option error)) :
  (forall tree, addDir_loop rec tree l1 = addDir_loop rec tree l2) ->
  forall tree, addDir_loop rec tree (pre ++ l1) = addDir_loop rec tree (pre ++ l2).
Proof.
  intros Hl. induction pre as [|[f err] pre IH]; intros tree; cbn; [apply Hl|].
  destruct (fatal err); [reflexivity|].
  destruct f as [child|]; [|reflexivity].
  destruct (rec child) as [t [nd|e]].
  - destruct (AddNodeLink tree _ nd) as [tree'|e]; [|reflexivity]. now rewrite IH.
  - destruct (is_hiddenFileError e); [|reflexivity]. now rewrite IH.
Qed.

(** The loop over a prefix of results that it runs through, none of which
    has a nil file, goes on with the rest from the tree built so far. *)
Lemma addDir_loop_app (rec : File -> M Node)
  (pre rest : list (option File * option error)) :
  Forall (fun x => fst x <> None) pre ->
  forall tree t tree',
  addDir_loop rec tree pre = (t, Ok tree') ->
  addDir_loop rec tree (pre ++ rest)
  = (t ++ fst (addDir_loop rec tree' rest), snd (addDir_loop rec tree' rest)).
Proof.
  induction 1 as [|[f err] pre Hx _ IH]; intros tree t tree' Hpre; cbn in *.
  - injection Hpre as <- <-. now destruct (addDir_loop rec tree rest).
  - destruct (fatal err) eqn:Hfatal.
    { destruct err as [e0|]; [discriminate Hpre|discriminate Hfatal]. }
    destruct f as [child|]; [|now exfalso; apply Hx].
    destruct (rec child) as [tc [nd|e]].
    + destruct (AddNodeLink tree _ nd) as [tree1|e]; [|discriminate Hpre].
      destruct (addDir_loop rec tree1 pre) as [t1 r1] eqn:H1.
      injection Hpre as <- ->.
      rewrite (IH tree1 t1 tree' H1). cbn. now rewrite app_assoc.
    + destruct (is_hiddenFileError e); [|discriminate Hpre].
      destruct (addDir_loop rec tree pre) as [t1 r1] eqn:H1.
      injection Hpre as <- ->.
      rewrite (IH tree t1 tree' H1). cbn. now rewrite app_assoc.
Qed.

(** C5.  With [hidden] unset, a hidden file among the results of a
    directory's [NextFile()] is skipped: the directory is added exactly as
    if that result were not there, so the hidden child adds no link and no
    event, and ends nothing.  The same file as the item of a top-level add
    makes that add fail with its hidden-file error, and with it the whole
    command when it is the only file of the request. *)
Theorem hidden_child_skipped_hidden_item_fails
  (n0 n : IpfsNode) (progress trickle hash : bool)
  (name : string) (dir : bool) (pre post : list (option File * option error))
  (child : File) (err : option error) :
  let params := mkAdder n progress false trickle in
  IsHidden child = true ->
  fatal err = false ->
  add_node n0 hash = Ok n ->
  addDir params (mkFile name dir (pre ++ (Some child, err) :: post))
  = addDir params (mkFile name dir (pre ++ post))
  /\ addFile params child = ([], Err (hiddenFileError (FileName child)))
  /\ snd (addSingleFile n progress false trickle hash child)
     = Err (hiddenFileError (FileName child))
  /\ snd (Run (Ok n0) progress trickle false hash false
              (mkFile name dir [(Some child, err)]))
     = Err (hiddenFileError (FileName child)).
Proof.
  cbv zeta. intros Hc Herr Hn.
  assert (Hf : addFile (mkAdder n progress false trickle) child
               = ([], Err (hiddenFileError (FileName child))))
    by now apply addFile_hidden.
  repeat split.
  - unfold addDir, addDir_body. cbn [FileName NextFiles]. f_equal.
    apply addDir_loop_app_agree. intros tree. cbn. rewrite Herr, Hf. cbn.
    now destruct (addDir_loop _ tree post).
  - exact Hf.
  - now rewrite addSingleFile_result, Hf.
  - unfold Run, lift. cbn [bind app]. rewrite Hn. cbn [bind app].
    destruct (defer _ _) as [t r] eqn:Hd. cbn.
    assert (r = snd (defer Close (addFilesSeparately n progress false trickle hash
                                    (mkFile name dir [(Some child, err)]))))
      by now rewrite Hd.
    subst r. unfold defer, addFilesSeparately. cbn [snd NextFiles addFilesSeparately_loop].
    rewrite Herr, snd_bind, addSingleFile_result, Hf. reflexivity.
Qed.

(** C6.  When the loop of [addDir] has run through the results before a
    child and the addition of that child fails with an error that is no
    hidden-file error, [addDir] returns that error at once: its trace is
    that of the children so far followed by that of the failing child, so
    it ends without a record and without a [DAG.Add] for the directory
    itself, and whatever follows the child makes no difference. *)
Theorem addDir_aborts_on_child_error
  (params : adder) (name : string) (dir : bool)
  (pre post : list (option File * option error))
  (child : File) (err : option error)
  (t_pre t_child : list Event) (tree : Node) (e : error) :
  Forall (fun x => fst x <> None) pre ->
  addDir_loop (addFile params) FolderNode pre = (t_pre, Ok tree) ->
  fatal err = false ->
  addFile params child = (t_child, Err e) ->
  is_hiddenFileError e = false ->
  addDir params (mkFile name dir (pre ++ (Some child, err) :: post))
  = (t_pre ++ t_child, Err e)
  /\ addDir params (mkFile name dir (pre ++ (Some child, err) :: post))
     = addDir params (mkFile name dir (pre ++ [(Some child, err)])).
Proof.
  intros Hpre Hloop Herr Hchild Hhid.
  assert (Hany : forall rest,
    addDir params (mkFile name dir (pre ++ (Some child, err) :: rest))
    = (t_pre ++ t_child, Err e)).
  { intros rest. unfold addDir, addDir_body. cbn [FileName NextFiles].
    rewrite (addDir_loop_app _ pre _ Hpre FolderNode t_pre tree Hloop).
    cbn [addDir_loop]. rewrite Herr, Hchild, Hhid. reflexivity. }
  split; [apply Hany|]. now rewrite !Hany.
Qed.

(** For contrast: when the loop is left by [break], the record of the
    directory is sent and its node is handed to [DAG.Add], in that order,
    after everything the children did. *)
Lemma addDir_persists_after_loop
  (params : adder) (f : File) (t : list Event) (tree : Node) (h : string) :
  addDir_loop (addFile params) FolderNode (NextFiles f) = (t, Ok tree) ->
  getOutput tree = Ok h ->
  fst (addDir params f)
  = t ++ [Send (mkAddedObject (FileName f) h 0); DagAdd (node params) tree].
Proof.
  intros Hloop Hh. unfold addDir, addDir_body. rewrite Hloop.
  unfold addDir_finish, outputDagnode, bind, lift, emit, ret. rewrite Hh.
  cbn. now destruct (DAG_Add (node params) tree).
Qed.

(** ** The output channel *)

Lemma addSingleFile_sends_ok (n : IpfsNode) (progress hidden trickle hash : bool) (f : File) :
  Forall sends_ok (fst (addSingleFile n progress hidden trickle hash f)).
Proof.
  rewrite addSingleFile_trace. cbv zeta.
  repeat (apply Forall_cons; split; [exact I|]).
  apply Forall_app. split; [apply Forall_app; split|repeat constructor].
  - eapply Forall_impl; [apply addFile_events|]. apply tree_event_sends_ok.
  - eapply Forall_impl; [apply pins_after_no_lock|]. now intros ev [_ H].
Qed.

Lemma addFilesSeparately_loop_sends_ok (n : IpfsNode) (progress hidden trickle hash : bool)
  (nexts : list (option File * option error)) :
  Forall sends_ok (fst (addFilesSeparately_loop n progress hidden trickle hash nexts)).
Proof.
  induction nexts as [|[f err] rest IH]; cbn [addFilesSeparately_loop]; [constructor|].
  destruct (fatal err); [destruct err; constructor|].
  destruct f as [file|]; [|constructor].
  apply Forall_fst_bind; [apply addSingleFile_sends_ok|]. intros _. exact IH.
Qed.

(** C7, as the code has it.  Every record that a run of the command sends
    on its output channel is a completion record, built with the hash of a
    node and its bytes left at zero, or a progress record, built with a byte
    count, which may be zero, and its hash left empty; no record has both a
    hash and a byte count. *)
Theorem Run_sends_completion_or_progress
  (getNode : result IpfsNode) (progress trickle wrap hash hidden : bool) (files : File) :
  forall o, Send o ∈ fst (Run getNode progress trickle wrap hash hidden files) ->
  (completion_record o \/ progress_record o) /\ ~ both_set o.
Proof.
  assert (H : Forall sends_ok (fst (Run getNode progress trickle wrap hash hidden files))).
  { unfold Run. apply Forall_fst_bind; [constructor|]. intros n.
    apply Forall_fst_bind; [constructor|]. intros n'.
    unfold defer. cbn [fst]. apply Forall_app. split; [|repeat constructor].
    destruct wrap; [apply addSingleFile_sends_ok|].
    apply addFilesSeparately_loop_sends_ok. }
  intros o Hin. rewrite Forall_forall in H. exact (H (Send o) Hin).
Qed.

(** ** Progress records *)

Lemma read_all_progress_due_from (i : progressReader) (reads : list (Z * option error)) :
  Forall (fun r => (0 <= fst r)%Z) reads ->
  (0 <= lastProgress i <= bytes i)%Z ->
  (bytes i + total_read reads < 2 ^ 63)%Z ->
  read_all i reads
  = progress_due progressReaderIncrement (FileName (file i)) (bytes i)
      (bytes i - lastProgress i) reads.
Proof.
  intros Hpos. revert i. induction Hpos as [|[n err] reads Hn Hpos IH];
    intros i Hi Hsum; [reflexivity|].
  cbn in Hn, Hsum. pose proof (Forall_nonneg_total reads Hpos) as Ht.
  cbn [read_all progress_due]. unfold Read.
  rewrite (int64_small n) by lia.
  rewrite (int64_small (bytes i + n)) by lia.
  rewrite (int64_small (bytes i + n - lastProgress i)) by lia.
  replace (bytes i - lastProgress i + n)%Z with (bytes i + n - lastProgress i)%Z by lia.
  destruct ((progressReaderIncrement <=? bytes i + n - lastProgress i)%Z || at_EOF err).
  - rewrite IH by (cbn; lia). cbn. now rewrite Z.sub_diag.
  - rewrite IH by (cbn; lia). reflexivity.
Qed.

(** C8, as the code has it.  Over any sequence of reads through a fresh
    progress reader, the records sent are those the rule gives with a record
    due when the bytes read since the last record have reached the
    threshold of 256 KiB, exceeded or not, and at every read that returns
    end-of-stream; each carries the file name and the cumulative byte
    count. *)
Theorem read_all_sends_at_threshold_or_EOF (f : File) (reads : list (Z * option error)) :
  counts_ok reads ->
  progressReaderIncrement = (256 * 1024)%Z
  /\ read_all (mkProgressReader f 0 0) reads
     = progress_due progressReaderIncrement (FileName f) 0 0 reads.
Proof.
  intros [Hpos Hsum]. split; [reflexivity|].
  rewrite read_all_progress_due_from; cbn; try lia; auto.
Qed.

(** ** The whole command *)






Lemma addFilesSeparately_loop_app
  (n : IpfsNode) (progress hidden trickle hash : bool)
  (pre rest : list (option File * option error)) :
  Forall (fun x => fst x <> None) pre ->
  forall t,
  addFilesSeparately_loop n progress hidden trickle hash pre = (t, Ok tt) ->
  addFilesSeparately_loop n progress hidden trickle hash (pre ++ rest)
  = (t ++ fst (addFilesSeparately_loop n progress hidden trickle hash rest),
     snd (addFilesSeparately_loop n progress hidden trickle hash rest)).
Proof.
  induction 1 as [|[f err] pre Hx _ IH]; intros t Hpre;
    cbn [app addFilesSeparately_loop] in *.
  - injection Hpre as <-. now destruct (addFilesSeparately_loop _ _ _ _ _ rest).
  - destruct (fatal err) eqn:Hfatal.
    { destruct err as [e0|]; [discriminate Hpre|discriminate Hfatal]. }
    destruct f as [file|]; [|now exfalso; apply Hx].
    unfold bind in *.
    destruct (addSingleFile n progress hidden trickle hash file) as [t1 [[]|e]];
      [|discriminate Hpre].
    destruct (addFilesSeparately_loop n progress hidden trickle hash pre)
      as [t2 r2] eqn:H2.
    injection Hpre as <- ->. rewrite (IH t2 eq_refl). cbn.
    now rewrite app_assoc.
Qed.

(** X20.  Without [wrap] the files of a request are added one after the
    other and the first failure ends the command: what the earlier files
    did stays done, their pins included, the error of the failing file is
    returned, and the files after it are not looked at. *)
Theorem addFilesSeparately_stops_at_first_error
  (n : IpfsNode) (progress hidden trickle hash : bool)
  (name : string) (dir : bool) (pre post : list (option File * option error))
  (f : File) (err : option error) (t_pre t_f : list Event) (e : error) :
  Forall (fun x => fst x <> None) pre ->
  addFilesSeparately_loop n progress hidden trickle hash pre = (t_pre, Ok tt) ->
  fatal err = false ->
  addSingleFile n progress hidden trickle hash f = (t_f, Err e) ->
  addFilesSeparately n progress hidden trickle hash
    (mkFile name dir (pre ++ (Some f, err) :: post))
  = (t_pre ++ t_f, Err e).
Proof.
  intros Hpre Hloop Herr Hf. unfold addFilesSeparately. cbn [NextFiles].
  rewrite (addFilesSeparately_loop_app n progress hidden trickle hash pre _ Hpre
             t_pre Hloop).
  cbn [addFilesSeparately_loop]. rewrite Herr. unfold bind. now rewrite Hf.
Qed.

(** X21.  [addDir] sends the completion record of a directory before it
    hands the directory node to [DAG.Add]: when [DAG.Add] fails, [addDir]
    returns the error although the record of the directory is already on
    the output channel. *)
Theorem addDir_record_precedes_DAG_Add
  (params : adder) (f : File) (t : list Event) (tree : Node) (h : string) (e : error) :
  addDir_loop (addFile params) FolderNode (NextFiles f) = (t, Ok tree) ->
  getOutput tree = Ok h ->
  DAG_Add (node params) tree = Err e ->
  addDir params f
  = (t ++ [Send (mkAddedObject (FileName f) h 0); DagAdd (node params) tree], Err e).
Proof.
  intros Hloop Hh Hadd. unfold addDir, addDir_body. rewrite Hloop.
  unfold addDir_finish, outputDagnode, bind, lift, emit, ret. rewrite Hh, Hadd.
  reflexivity.
Qed.

Lemma addSingleFile_only_hash_events (n : IpfsNode) (progress hidden trickle : bool) (f : File) :
  Forall (fun ev => on_node n ev /\ ~ pin_event ev)
         (fst (addSingleFile n progress hidden trickle true f)).
Proof.
  rewrite addSingleFile_trace. cbv zeta.
  assert (Hp : pins_after n true (snd (addFile (mkAdder n progress hidden trickle) f)) = []).
  { unfold pins_after. destruct (snd _) as [rootnd|e]; [|reflexivity].
    now destruct (Node_Key rootnd). }
  rewrite Hp, app_nil_r.
  repeat (apply Forall_cons; split; [cbn; tauto|]).
  apply Forall_app. split; [|repeat constructor; cbn; tauto].
  eapply Forall_impl; [apply addFile_events|].
  intros ev Hev. apply tree_event_no_lock_no_pin in Hev. tauto.
Qed.

(** X22.  With [only-hash] the command touches the node of the invocation
    only to build a node over a nil repository: every lock, every write
    through the DAG service goes to that node, and nothing is pinned or
    flushed, with or without [wrap]; when that node cannot be built the
    command fails before doing anything. *)
Theorem Run_only_hash_stays_on_nil_node
  (n0 : IpfsNode) (progress trickle wrap hidden : bool) (files : File) :
  match NilRepo_Build n0 with
  | Ok nilnode =>
      Forall (fun ev => on_node nilnode ev /\ ~ pin_event ev)
             (fst (Run (Ok n0) progress trickle wrap true hidden files))
  | Err e => Run (Ok n0) progress trickle wrap true hidden files = ([], Err e)
  end.
Proof.
  unfold Run, add_node. cbn [lift bind app].
  destruct (NilRepo_Build n0) as [nilnode|e]; [|reflexivity].
  cbn [bind app]. destruct (defer Close _) as [t r] eqn:Hd. cbn [fst].
  assert (Ht : t = fst (defer Close
                 (if wrap then addSingleFile nilnode progress hidden trickle true files
                  else addFilesSeparately nilnode progress hidden trickle true files)))
    by now rewrite Hd.
  rewrite Ht. unfold defer. cbn [fst]. clear Ht Hd.
  apply Forall_app. split; [|repeat constructor; cbn; tauto].
  destruct wrap; [apply addSingleFile_only_hash_events|].
  unfold addFilesSeparately.
  induction (NextFiles files) as [|[f err] rest IH]; cbn [addFilesSeparately_loop];
    [constructor|].
  destruct (fatal err); [destruct err; constructor|].
  destruct f as [file|]; [|constructor].
  apply Forall_fst_bind; [apply addSingleFile_only_hash_events|]. intros _. exact IH.
Qed.

Lemma addDir_loop_ext (rec1 rec2 : File -> M Node)
  (nexts : list (option File * option error)) :
  Forall (fun x => match fst x with
                   | Some c => rec1 c = rec2 c
                   | None => True
                   end) nexts ->
  forall tree, addDir_loop rec1 tree nexts = addDir_loop rec2 tree nexts.
Proof.
  induction 1 as [|[f err] rest Hx _ IH]; intros tree; cbn; [reflexivity|].
  destruct (fatal err); [reflexivity|].
  destruct f as [child|]; [|reflexivity]. cbn in Hx. rewrite Hx.
  destruct (rec2 child) as [t [nd|e]].
  - destruct (AddNodeLink tree _ nd) as [tree'|e]; [|reflexivity]. now rewrite IH.
  - destruct (is_hiddenFileError e); [|reflexivity]. now rewrite IH.
Qed.

(** X24.  Unless [quiet] is set, [PreRun] turns the progress option on, so
    that [Run] streams progress whatever the request said about progress,
    and it records the size of the files when they have one; with [quiet]
    it leaves the request as it is.  The request is taken to keep what
    [SetOption] sets and to leave the other options of the command alone. *)
Theorem PreRun_turns_progress_on
  (req : Req) (size : option (result Z)) (values : gmap string Z)
  (getNode : result IpfsNode) (files : File) :
  (forall r, Option_Bool (SetOption r progressOptionName true) progressOptionName
             = (true, true, None)) ->
  (forall r name,
      name ∈ [trickleOptionName; wrapOptionName; onlyHashOptionName; hiddenOptionName] ->
      Option_Bool (SetOption r progressOptionName true) name = Option_Bool r name) ->
  if option_value req quietOptionName
  then PreRun req size values = (req, values)
  else Run_request (fst (PreRun req size values)) getNode files
       = Run getNode true
           (option_value req trickleOptionName) (option_value req wrapOptionName)
           (option_value req onlyHashOptionName) (option_value req hiddenOptionName)
           files
       /\ snd (PreRun req size values) !! "size"
          = match size with
            | Some (Ok sz) => Some sz
            | _ => values !! "size"
            end.
Proof.
  intros Hset Hother. unfold PreRun.
  destruct (option_value req quietOptionName); [reflexivity|].
  assert (Hreq : fst (match size with
                      | Some (Ok sz) =>
                          (SetOption req progressOptionName true, <["size":=sz]> values)
                      | _ => (SetOption req progressOptionName true, values)
                      end) = SetOption req progressOptionName true)
    by (destruct size as [[sz|e]|]; reflexivity).
  cbv zeta. rewrite Hreq. split.
  - unfold Run_request, option_value. rewrite Hset.
    rewrite !Hother by (rewrite !elem_of_cons; auto). reflexivity.
  - destruct size as [[sz|e]|]; cbn [snd]; [apply lookup_insert_eq|reflexivity..].
Qed.

(** ** What the progress records of one file look like *)

Lemma total_read_app (l1 l2 : list (Z * option error)) :
  total_read (l1 ++ l2) = (total_read l1 + total_read l2)%Z.
Proof. induction l1 as [|[n err] l1 IH]; cbn; [reflexivity|rewrite IH; lia]. Qed.

Lemma counts_ok_fresh (f : File) (reads : list (Z * option error)) :
  counts_ok reads ->
  read_all (mkProgressReader f 0 0) reads
  = progress_due progressReaderIncrement (FileName f) 0 0 reads.
Proof.
  intros [Hpos Hsum]. rewrite read_all_progress_due_from; cbn; try lia; auto.
Qed.

Lemma progress_due_bounds (T : Z) (name : string) (reads : list (Z * option error)) :
  Forall (fun r => (0 <= fst r)%Z) reads ->
  forall total since,
  Forall (fun o => Name o = name /\ Hash o = EmptyString
                   /\ (total <= Bytes o <= total + total_read reads)%Z)
         (progress_due T name total since reads).
Proof.
  induction 1 as [|[n err] reads Hn Hpos IH]; intros total since; cbn; [constructor|].
  cbn in Hn. pose proof (Forall_nonneg_total reads Hpos) as Ht.
  assert (Hrest : forall since', Forall
            (fun o => Name o = name /\ Hash o = EmptyString
                      /\ (total <= Bytes o <= total + (n + total_read reads))%Z)
            (progress_due T name (total + n) since' reads)).
  { intros since'. eapply Forall_impl; [apply IH|]. cbn. intros o (? & ? & ?).
    repeat split; auto; lia. }
  destruct ((T <=? since + n)%Z || at_EOF err); [|apply Hrest].
  constructor; [cbn; repeat split; auto; lia|apply Hrest].
Qed.

Lemma progress_due_sorted (T : Z) (name : string) (reads : list (Z * option error)) :
  Forall (fun r => (0 <= fst r)%Z) reads ->
  forall total since,
  StronglySorted Z.le (Bytes <$> progress_due T name total since reads).
Proof.
  induction 1 as [|[n err] reads Hn Hpos IH]; intros total since; cbn; [constructor|].
  destruct ((T <=? since + n)%Z || at_EOF err); [|apply IH].
  cbn. constructor; [apply IH|]. apply Forall_fmap.
  eapply Forall_impl; [apply (progress_due_bounds T name reads Hpos)|].
  cbn. intros o (_ & _ & Hb). lia.
Qed.

Lemma progress_due_app (T : Z) (name : string) (l1 l2 : list (Z * option error)) :
  forall total since, exists since',
  progress_due T name total since (l1 ++ l2)
  = progress_due T name total since l1
    ++ progress_due T name (total + total_read l1) since' l2.
Proof.
  induction l1 as [|[n err] l1 IH]; intros total since; cbn.
  - exists since. now rewrite Z.add_0_r.
  - destruct ((T <=? since + n)%Z || at_EOF err).
    + destruct (IH (total + n)%Z 0%Z) as [since' ->]. exists since'.
      cbn. now rewrite Z.add_assoc.
    + destruct (IH (total + n)%Z (since + n)%Z) as [since' ->]. exists since'.
      now rewrite Z.add_assoc.
Qed.

Lemma progress_due_rate (T : Z) (name : string) (reads : list (Z * option error)) :
  Forall (fun r => (0 <= fst r)%Z) reads ->
  forall total since, (0 <= since)%Z ->
  (T * (Z.of_nat (length (progress_due T name total since reads))
        - Z.of_nat (eof_reads reads))
   <= since + total_read reads)%Z.
Proof.
  induction 1 as [|[n err] reads Hn Hpos IH]; intros total since Hs;
    cbn [progress_due eof_reads total_read length]; [cbn; lia|].
  cbn in Hn. pose proof (Forall_nonneg_total reads Hpos) as Ht.
  destruct (at_EOF err) eqn:He.
  - rewrite orb_true_r. cbn [length].
    specialize (IH (total + n)%Z 0%Z ltac:(lia)). lia.
  - rewrite orb_false_r. destruct (T <=? since + n)%Z eqn:Hle.
    + apply Z.leb_le in Hle. cbn [length].
      specialize (IH (total + n)%Z 0%Z ltac:(lia)). lia.
    + specialize (IH (total + n)%Z (since + n)%Z ltac:(lia)). lia.
Qed.

(** X16.  When the last read of a file returns end-of-stream, the last
    progress record sent for the file carries the total number of bytes
    read, whatever the sizes of the reads. *)
Theorem read_all_last_record_is_total
  (f : File) (reads : list (Z * option error)) (n : Z) :
  counts_ok (reads ++ [(n, Some io_EOF)]) ->
  last (read_all (mkProgressReader f 0 0) (reads ++ [(n, Some io_EOF)]))
  = Some (mkAddedObject (FileName f) EmptyString (total_read reads + n)).
Proof.
  intros Hok. rewrite (counts_ok_fresh f _ Hok).
  destruct (progress_due_app progressReaderIncrement (FileName f) reads
              [(n, Some io_EOF)] 0%Z 0%Z) as [since' ->].
  cbn [progress_due at_EOF is_EOF]. rewrite orb_true_r.
  now rewrite last_snoc.
Qed.

(** X17.  Progress records are at least 256 KiB apart unless a read
    returned end-of-stream: the number of records sent, less the reads that
    returned end-of-stream, times 256 KiB, never exceeds the bytes read. *)
Theorem read_all_rate (f : File) (reads : list (Z * option error)) :
  counts_ok reads ->
  (progressReaderIncrement
   * (Z.of_nat (length (read_all (mkProgressReader f 0 0) reads))
      - Z.of_nat (eof_reads reads))
   <= total_read reads)%Z.
Proof.
  intros Hok. rewrite (counts_ok_fresh f _ Hok). destruct Hok as [Hpos _].
  pose proof (progress_due_rate progressReaderIncrement (FileName f) reads Hpos
                0%Z 0%Z ltac:(lia)). lia.
Qed.

(** X18.  The progress records of one file all name the file, carry no
    hash, and carry byte counts that never decrease and never exceed the
    bytes read. *)
Theorem read_all_sorted (f : File) (reads : list (Z * option error)) :
  counts_ok reads ->
  StronglySorted Z.le (Bytes <$> read_all (mkProgressReader f 0 0) reads)
  /\ Forall (fun o => Name o = FileName f /\ Hash o = EmptyString
                      /\ (0 <= Bytes o <= total_read reads)%Z)
            (read_all (mkProgressReader f 0 0) reads).
Proof.
  intros Hok. rewrite (counts_ok_fresh f _ Hok). destruct Hok as [Hpos _]. split.
  - now apply progress_due_sorted.
  - eapply Forall_impl;
      [apply (progress_due_bounds progressReaderIncrement (FileName f) reads Hpos 0%Z 0%Z)|].
    cbn. intros o (? & ? & ?). auto.
Qed.

End Pipeline.

(** ** Reporting: [PostRun] *)
Section Reporting.

(** [progressBarMinSize] and [u.ErrCast()] of the repository, and
    [bar.Add64] of the progress bar: from the bar's counter and a delta, the
    new counter, which it returns. *)
Variable progressBarMinSize : Z.
Variable ErrCast : error.
Variable bar_Add64 : Z -> Z -> Z.

(** What [PostRun] does, in order. *)
Inductive Report : Type :=
| Stdout (line : string)
| Stderr (text : string)
| SetOutputNil
| BarStart (size : Z)
| BarAdd (delta : Z)
| BarUpdate.

(** The variables of the loop of [PostRun], and the counter of the bar. *)
Record post_state : Type := mkPost {
  lastFile : string;
  totalProgress : Z;
  prevFiles : Z;
  lastBytes : Z;
  bar_current : Z
}.

Definition post_start : post_state := mkPost EmptyString 0 0 0 0.

Definition line_end : string := String (ascii_of_nat 10) EmptyString.

(** The escape sequence that clears the line of the bar. *)
Definition clear_line : string :=
  String (ascii_of_nat 27) ("[2K" +:+ String (ascii_of_nat 13) EmptyString).

(** The line printed for a record with a hash. *)
Definition added_line (quiet : bool) (output : AddedObject) : string :=
  if quiet then Hash output +:+ line_end
  else "added " +:+ Hash output +:+ " " +:+ Name output +:+ line_end.

(** One iteration of [for out := range outChan]. *)
Definition PostRun_step (quiet showProgressBar : bool) (st : post_state)
  (output : AddedObject) : post_state * list Report :=
  if (0 <? String.length (Hash output))%nat then
    (st,
     (if showProgressBar then [Stderr clear_line] else [])
     ++ [Stdout (added_line quiet output)]
     ++ (if showProgressBar then [BarUpdate] else []))
  else if negb showProgressBar then (st, [])
  else
    let lastFile1 :=
      if (String.length (lastFile st) =? 0)%nat then Name output else lastFile st in
    let changed :=
      negb (String.eqb (Name output) lastFile1) || (Bytes output <? lastBytes st)%Z in
    let prevFiles1 :=
      if changed then int64 (prevFiles st + lastBytes st) else prevFiles st in
    let lastFile2 := if changed then Name output else lastFile1 in
    let lastBytes1 := Bytes output in
    let delta := int64 (int64 (prevFiles1 + lastBytes1) - totalProgress st) in
    let total := bar_Add64 (bar_current st) delta in
    (mkPost lastFile2 total prevFiles1 lastBytes1 total, [BarAdd delta; BarUpdate]).

Fixpoint PostRun_loop (quiet showProgressBar : bool) (st : post_state)
  (outChan : list AddedObject) : post_state * list Report :=
  match outChan with
  | [] => (st, [])
  | output :: rest =>
      let '(st1, r1) := PostRun_step quiet showProgressBar st output in
      let '(st2, r2) := PostRun_loop quiet showProgressBar st1 rest in
      (st2, r1 ++ r2)
  end.

(** [PostRun]: with the error already on the response, whether its output
    is the channel, what [req.Option("quiet").Bool()] returns, the map
    [req.Values()] and the records on the channel until it is closed, what
    is reported and the error [PostRun] sets.  Starting the bar stands for
    [pb.New64], [bar.Start()] and the first [bar.Update()]; the callback that
    measures the width of the terminal only moves where the bar is drawn. *)
Definition PostRun (res_Error : option error) (output_is_chan : bool)
  (quiet_option : bool * bool * option error) (values : gmap string Z)
  (outChan : list AddedObject) : list Report * option error :=
  match res_Error with
  | Some _ => ([], None)
  | None =>
      if negb output_is_chan then ([], Some ErrCast)
      else
        let '(quiet, _, err) := quiet_option in
        match err with
        | Some _ => ([SetOutputNil], Some ErrCast)
        | None =>
            let size := match values !! "size" with Some sz => sz | None => 0%Z end in
            let showProgressBar := negb quiet && (progressBarMinSize <=? size)%Z in
            ([SetOutputNil]
             ++ (if showProgressBar then [BarStart size; BarUpdate] else [])
             ++ snd (PostRun_loop quiet showProgressBar post_start outChan),
             None)
        end
  end.

(** The lines written to standard output, and the progress records. *)
Definition stdout_of (reports : list Report) : list string :=
  omap (fun r => match r with Stdout line => Some line | _ => None end) reports.

Definition has_hash (o : AddedObject) : bool := negb (String.eqb (Hash o) EmptyString).

Definition progress_of (records : list AddedObject) : list AddedObject :=
  List.filter (fun o => negb (has_hash o)) records.

Lemma has_hash_length (o : AddedObject) :
  (0 <? String.length (Hash o))%nat = has_hash o.
Proof. unfold has_hash. now destruct (Hash o). Qed.

Lemma stdout_of_app (r1 r2 : list Report) :
  stdout_of (r1 ++ r2) = stdout_of r1 ++ stdout_of r2.
Proof. apply omap_app. Qed.

Lemma PostRun_loop_stdout (quiet showProgressBar : bool) (outChan : list AddedObject) :
  forall st,
  stdout_of (snd (PostRun_loop quiet showProgressBar st outChan))
  = added_line quiet <$> List.filter has_hash outChan.
Proof.
  induction outChan as [|o rest IH]; intros st; [reflexivity|].
  cbn [PostRun_loop List.filter].
  destruct (PostRun_step quiet showProgressBar st o) as [st1 r1] eqn:Hstep.
  specialize (IH st1).
  destruct (PostRun_loop quiet showProgressBar st1 rest) as [st2 r2].
  cbn [snd] in *. rewrite stdout_of_app, IH.
  unfold PostRun_step in Hstep. rewrite has_hash_length in Hstep.
  destruct (has_hash o).
  - injection Hstep as _ <-. now destruct showProgressBar.
  - destruct showProgressBar; cbn in Hstep; injection Hstep as _ <-; reflexivity.
Qed.

(** X25.  [PostRun] prints one line for every record that has a hash, in
    the order of the channel, and nothing for a record without one: the
    hash alone with [quiet], [added], the hash and the name otherwise. *)
Theorem PostRun_prints_a_line_per_hash
  (found : bool) (quiet : bool) (values : gmap string Z) (outChan : list AddedObject) :
  stdout_of (fst (PostRun None true (quiet, found, None) values outChan))
  = added_line quiet <$> List.filter has_hash outChan.
Proof.
  unfold PostRun. cbn [negb fst]. rewrite !stdout_of_app, PostRun_loop_stdout.
  now destruct (negb quiet && _).
Qed.

Lemma PostRun_loop_no_bar (quiet : bool) (outChan : list AddedObject) :
  forall st,
  snd (PostRun_loop quiet false st outChan)
  = (fun o => Stdout (added_line quiet o)) <$> List.filter has_hash outChan.
Proof.
  induction outChan as [|o rest IH]; intros st; [reflexivity|].
  cbn [PostRun_loop List.filter]. unfold PostRun_step. rewrite has_hash_length.
  destruct (has_hash o); cbn [negb app].
  - specialize (IH st). destruct (PostRun_loop quiet false st rest) as [st2 r2].
    cbn in *. now rewrite IH.
  - specialize (IH st). destruct (PostRun_loop quiet false st rest) as [st2 r2].
    cbn in *. exact IH.
Qed.

(** X26.  With [quiet], [PostRun] starts no progress bar and writes
    nothing but the hashes: after taking the channel off the response, all
    it does is print one hash per line. *)
Theorem PostRun_quiet_prints_hashes_only
  (found : bool) (values : gmap string Z) (outChan : list AddedObject) :
  PostRun None true (true, found, None) values outChan
  = (SetOutputNil
     :: ((fun o => Stdout (Hash o +:+ line_end)) <$> List.filter has_hash outChan),
     None).
Proof.
  unfold PostRun. cbn [negb andb app]. now rewrite PostRun_loop_no_bar.
Qed.

(** The bar follows one file: the state after progress records of a file
    whose byte counts do not decrease. *)
Lemma PostRun_loop_one_file (quiet : bool) (name : string) (records : list AddedObject) :
  (forall c d, bar_Add64 c d = int64 (c + d)) ->
  forall st b0,
  prevFiles st = 0%Z -> totalProgress st = b0 -> bar_current st = b0 ->
  lastBytes st = b0 -> (0 <= b0 < 2 ^ 63)%Z ->
  lastFile st = EmptyString \/ lastFile st = name ->
  Forall (fun o => has_hash o = false -> Name o = name /\ (Bytes o < 2 ^ 63)%Z) records ->
  StronglySorted Z.le (b0 :: (Bytes <$> progress_of records)) ->
  bar_current (fst (PostRun_loop quiet true st records))
  = default b0 (last (Bytes <$> progress_of records)).
Proof.
  intros Hadd. induction records as [|o rest IH];
    intros st b0 Hprev Htot Hbar Hlast Hb0 Hfile Hrec Hsorted; [exact Hbar|].
  apply Forall_cons in Hrec as [Ho Hrec].
  cbn [PostRun_loop]. unfold PostRun_step. rewrite has_hash_length.
  unfold progress_of in *. cbn [List.filter] in *.
  destruct (has_hash o) eqn:Hh; cbn [negb] in *.
  - specialize (IH st b0 Hprev Htot Hbar Hlast Hb0 Hfile Hrec Hsorted).
    destruct (PostRun_loop quiet true st rest) as [st2 r2]. exact IH.
  - destruct (Ho eq_refl) as [Hname Hsmall]. cbn [fmap list_fmap] in Hsorted.
    apply StronglySorted_inv in Hsorted as [Hsorted Hge].
    apply Forall_cons in Hge as [Hge _].
    assert (Hl1 : (if (String.length (lastFile st) =? 0)%nat then Name o else lastFile st)
                  = name).
    { destruct Hfile as [-> | ->]; [exact Hname|].
      destruct (String.length name =? 0)%nat; [exact Hname|reflexivity]. }
    cbv zeta. rewrite Hl1, Hname, String.eqb_refl. cbn [negb orb].
    destruct (Z.ltb_spec (Bytes o) (lastBytes st)) as [Hlt|_]; [lia|].
    rewrite Hprev, Htot, Hbar, Hadd, Z.add_0_l.
    rewrite (int64_small (Bytes o)) by lia.
    rewrite (int64_small (Bytes o - b0)) by lia.
    replace (b0 + (Bytes o - b0))%Z with (Bytes o) by lia.
    rewrite (int64_small (Bytes o)) by lia.
    specialize (IH (mkPost name (Bytes o) 0 (Bytes o) (Bytes o)) (Bytes o)
                  eq_refl eq_refl eq_refl eq_refl ltac:(lia) (or_intror eq_refl)
                  Hrec Hsorted).
    destruct (PostRun_loop quiet true _ rest) as [st2 r2]. cbn [fst] in *.
    rewrite IH. cbn [fmap list_fmap]. rewrite last_cons.
    now destruct (last _).
Qed.

Lemma PostRun_bar_one_file_helper
  (quiet : bool) (name : string) (outChan : list AddedObject) :
  (forall c d, bar_Add64 c d = int64 (c + d)) ->
  Forall (fun o => has_hash o = false -> Name o = name /\ (Bytes o < 2 ^ 63)%Z) outChan ->
  StronglySorted Z.le (0%Z :: (Bytes <$> progress_of outChan)) ->
  bar_current (fst (PostRun_loop quiet true post_start outChan))
  = default 0%Z (last (Bytes <$> progress_of outChan)).
Proof.
  intros Hadd Hrec Hsorted.
  apply (PostRun_loop_one_file quiet name outChan Hadd post_start 0%Z);
    auto; cbn; lia.
Qed.

(** X27.  While the progress bar is shown and the records without a hash
    all name one file and carry byte counts that do not decrease, the bar
    stands, after the loop, at the byte count of the last of them, provided
    [bar.Add64] adds its argument to the counter of the bar. *)
Theorem PostRun_bar_follows_one_file
  (quiet : bool) (name : string) (outChan : list AddedObject) :
  (forall c d, bar_Add64 c d = int64 (c + d)) ->
  Forall (fun o => has_hash o = false -> Name o = name /\ (Bytes o < 2 ^ 63)%Z) outChan ->
  StronglySorted Z.le (0%Z :: (Bytes <$> progress_of outChan)) ->
  bar_current (fst (PostRun_loop quiet true post_start outChan))
  = default 0%Z (last (Bytes <$> progress_of outChan)).
Proof.
  intros Hadd Hrec Hsorted.
  apply (PostRun_loop_one_file quiet name outChan Hadd post_start 0%Z);
    auto; cbn; lia.
Qed.

Lemma progress_of_app (l1 l2 : list AddedObject) :
  progress_of (l1 ++ l2) = progress_of l1 ++ progress_of l2.
Proof. unfold progress_of. apply List.filter_app. Qed.

Lemma progress_of_all (l : list AddedObject) :
  Forall (fun o => Hash o = EmptyString) l -> progress_of l = l.
Proof.
  induction 1 as [|o l Ho _ IH]; [reflexivity|].
  unfold progress_of, has_hash in *. cbn [List.filter]. rewrite Ho. cbn. now rewrite IH.
Qed.

(** X28.  End to end for one file: when the file was read through the
    progress reader up to end-of-stream and its completion record followed,
    the bar of [PostRun] stands at the number of bytes read. *)
Theorem PostRun_bar_ends_at_bytes_read
  (quiet : bool) (f : File) (reads : list (Z * option error)) (n : Z) (h : string) :
  (forall c d, bar_Add64 c d = int64 (c + d)) ->
  counts_ok (reads ++ [(n, Some io_EOF)]) ->
  h <> EmptyString ->
  bar_current
    (fst (PostRun_loop quiet true post_start
            (read_all (mkProgressReader f 0 0) (reads ++ [(n, Some io_EOF)])
             ++ [mkAddedObject (FileName f) h 0])))
  = (total_read reads + n)%Z.
Proof.
  intros Hadd Hok Hh.
  assert (Hhash : has_hash (mkAddedObject (FileName f) h 0) = true).
  { unfold has_hash. cbn. destruct (String.eqb_spec h EmptyString); [contradiction|reflexivity]. }
  rewrite (counts_ok_fresh f _ Hok). destruct Hok as [Hpos Hsum].
  set (recs := progress_due progressReaderIncrement (FileName f) 0 0
                 (reads ++ [(n, Some io_EOF)])).
  pose proof (progress_due_bounds progressReaderIncrement (FileName f) _ Hpos 0%Z 0%Z)
    as Hb. fold recs in Hb.
  pose proof (progress_due_sorted progressReaderIncrement (FileName f) _ Hpos 0%Z 0%Z)
    as Hs. fold recs in Hs.
  assert (Hprog : progress_of (recs ++ [mkAddedObject (FileName f) h 0]) = recs).
  { rewrite progress_of_app, progress_of_all.
    - unfold progress_of. cbn [List.filter]. rewrite Hhash. cbn. apply app_nil_r.
    - eapply Forall_impl; [exact Hb|]. cbn. tauto. }
  rewrite (PostRun_bar_one_file_helper quiet (FileName f) _ Hadd).
  - rewrite Hprog. unfold recs.
    destruct (progress_due_app progressReaderIncrement (FileName f) reads
                [(n, Some io_EOF)] 0%Z 0%Z) as [since' ->].
    cbn [progress_due at_EOF is_EOF]. rewrite orb_true_r.
    rewrite fmap_app. cbn [fmap list_fmap]. rewrite last_snoc. reflexivity.
  - apply Forall_app. split.
    + eapply Forall_impl; [exact Hb|]. cbn. intros o (Hn & _ & Hrange) _.
      split; [exact Hn|lia].
    + apply Forall_singleton. rewrite Hhash. discriminate.
  - rewrite Hprog. constructor; [exact Hs|]. apply Forall_fmap.
    eapply Forall_impl; [exact Hb|]. cbn. intros o (_ & _ & Hrange). lia.
Qed.

End Reporting.

(** ** The theorems on the small world *)

Local Abbreviation sample_addFile :=
  (addFile nat sample_Node string sample_IsHidden sample_Build sample_Build
     sample_FolderNode sample_AddNodeLink sample_getOutput sample_DAG_Add).
Local Abbreviation sample_addDir :=
  (addDir nat sample_Node string sample_IsHidden sample_Build sample_Build
     sample_FolderNode sample_AddNodeLink sample_getOutput sample_DAG_Add).
Local Abbreviation sample_addSingleFile :=
  (addSingleFile nat sample_Node string sample_IsHidden sample_Build sample_Build
     sample_FolderNode sample_AddNodeLink sample_Key sample_getOutput
     sample_DAG_Add sample_Flush).
Local Abbreviation sample_Run :=
  (Run nat sample_Node string sample_IsHidden sample_Build sample_Build
     sample_FolderNode sample_AddNodeLink sample_Key sample_getOutput
     sample_DAG_Add sample_Flush sample_NilRepo).
Local Abbreviation sample_addFilesSeparately :=
  (addFilesSeparately nat sample_Node string sample_IsHidden sample_Build sample_Build
     sample_FolderNode sample_AddNodeLink sample_Key sample_getOutput
     sample_DAG_Add sample_Flush).
Local Abbreviation ev_PinLock := (PinLock nat sample_Node string).
Local Abbreviation ev_Unlock := (Unlock nat sample_Node string).
Local Abbreviation ev_DagAdd := (DagAdd nat sample_Node string).
Local Abbreviation ev_Send := (Send nat sample_Node string).
Local Abbreviation ev_PinWithMode := (PinWithMode nat sample_Node string).
Local Abbreviation ev_Flush := (Flush nat sample_Node string).

(** X23.  With [hidden] set, what counts as hidden plays no part:
    [addFile] gives the same trace and the same result under any two
    notions of a hidden file, all the way down the tree. *)
Theorem addFile_hidden_set_ignores_IsHidden
  (IpfsNode Node Key : Type) (IsHidden1 IsHidden2 : File -> bool)
  (Build BuildTrickle : IpfsNode -> File -> list (ImporterStep Node) * result Node)
  (FolderNode : Node) (AddNodeLink : Node -> string -> Node -> result Node)
  (getOutput : Node -> result string) (DAG_Add : IpfsNode -> Node -> result Key)
  (params : adder IpfsNode) (f : File) :
  hidden IpfsNode params = true ->
  addFile IpfsNode Node Key IsHidden1 Build BuildTrickle FolderNode AddNodeLink
    getOutput DAG_Add params f
  = addFile IpfsNode Node Key IsHidden2 Build BuildTrickle FolderNode AddNodeLink
      getOutput DAG_Add params f.
Proof.
  intros Hh. induction f as [name dir nexts IH] using File_ind.
  rewrite !addFile_unfold, Hh, !andb_false_r. cbn [IsDirectory].
  destruct dir; [|reflexivity].
  unfold addDir, addDir_body. cbn [FileName NextFiles]. f_equal.
  now apply addDir_loop_ext.
Qed.

Lemma addFile_hidden_set_sample :
  addFile nat sample_Node string sample_IsHidden sample_Build sample_Build
    sample_FolderNode sample_AddNodeLink sample_getOutput sample_DAG_Add
    (mkAdder nat 0%nat false true false)
    (mkFile "dir" true [(Some file_a, None); (Some file_hidden, None)])
  = ([ev_DagAdd 0%nat ("dir/a.txt", []);
      ev_Send (mkAddedObject "dir/a.txt" "Qm-dir/a.txt" 0);
      ev_DagAdd 0%nat ("dir/.git", []);
      ev_Send (mkAddedObject "dir/.git" "Qm-dir/.git" 0);
      ev_Send (mkAddedObject "dir" "Qm-folder" 0);
      ev_DagAdd 0%nat ("folder", ["a.txt"; ".git"])],
     Ok ("folder", ["a.txt"; ".git"])).
Proof.
  refine (eq_trans (addFile_hidden_set_ignores_IsHidden nat sample_Node string
                      sample_IsHidden sample_no_IsHidden sample_Build sample_Build
                      sample_FolderNode sample_AddNodeLink sample_getOutput
                      sample_DAG_Add (mkAdder nat 0%nat false true false)
                      (mkFile "dir" true [(Some file_a, None); (Some file_hidden, None)])
                      _) _); reflexivity.
Defined.

(** Two files, the second unreadable: the first stays added and pinned. *)
Lemma addFilesSeparately_stops_sample :
  sample_addFilesSeparately 0%nat false false false false
    (mkFile "" true [(Some file_a, None); (Some file_broken, None); (Some file_c, None)])
  = ([ev_PinLock 0%nat DataBlocks; ev_PinLock 0%nat StateBlocks;
      ev_DagAdd 0%nat ("dir/a.txt", []);
      ev_Send (mkAddedObject "dir/a.txt" "Qm-dir/a.txt" 0);
      ev_PinWithMode 0%nat "key-dir/a.txt" Recursive; ev_Flush 0%nat;
      ev_Unlock 0%nat StateBlocks; ev_Unlock 0%nat DataBlocks]
     ++ [ev_PinLock 0%nat DataBlocks; ev_PinLock 0%nat StateBlocks;
         ev_Unlock 0%nat StateBlocks; ev_Unlock 0%nat DataBlocks],
     Err (errorString "read failed")).
Proof.
  refine (addFilesSeparately_stops_at_first_error nat sample_Node string
            sample_IsHidden sample_Build sample_Build sample_FolderNode
            sample_AddNodeLink sample_Key sample_getOutput sample_DAG_Add
            sample_Flush 0%nat false false false false "" true
            [(Some file_a, None)] [(Some file_c, None)] file_broken None
            _ _ (errorString "read failed") _ _ _ _).
  - repeat constructor. discriminate.
  - reflexivity.
  - reflexivity.
  - reflexivity.
Defined.

(** A directory on a node whose DAG service is full. *)
Lemma addDir_record_precedes_sample :
  addDir nat sample_Node string sample_IsHidden sample_Build sample_Build
    sample_FolderNode sample_AddNodeLink sample_getOutput sample_full_DAG_Add
    (mkAdder nat 0%nat false false false) (mkFile "dir" true [(Some file_a, None)])
  = ([ev_DagAdd 0%nat ("dir/a.txt", []);
      ev_Send (mkAddedObject "dir/a.txt" "Qm-dir/a.txt" 0)]
     ++ [ev_Send (mkAddedObject "dir" "Qm-folder" 0);
         ev_DagAdd 0%nat ("folder", ["a.txt"])],
     Err (errorString "no space left")).
Proof.
  refine (addDir_record_precedes_DAG_Add nat sample_Node string sample_IsHidden
            sample_Build sample_Build sample_FolderNode sample_AddNodeLink
            sample_getOutput sample_full_DAG_Add
            (mkAdder nat 0%nat false false false) (mkFile "dir" true [(Some file_a, None)])
            _ _ "Qm-folder" _ _ _ _); reflexivity.
Defined.

(** One file added with progress on the node of the invocation: a progress
    record at end-of-stream, the block, the completion record, then the
    recursive pin and the flush, all between the locks. *)
Lemma addSingleFile_pins_sample :
  fst (sample_addSingleFile 0%nat true false false false file_a)
  = [ev_PinLock 0%nat DataBlocks; ev_PinLock 0%nat StateBlocks;
     ev_Send (mkAddedObject "dir/a.txt" "" 300);
     ev_DagAdd 0%nat ("dir/a.txt", []);
     ev_Send (mkAddedObject "dir/a.txt" "Qm-dir/a.txt" 0);
     ev_PinWithMode 0%nat "key-dir/a.txt" Recursive; ev_Flush 0%nat;
     ev_Unlock 0%nat StateBlocks; ev_Unlock 0%nat DataBlocks].
Proof.
  refine (proj1 (addSingleFile_pins_unless_only_hash nat sample_Node string
                   sample_IsHidden sample_Build sample_Build sample_FolderNode
                   sample_AddNodeLink sample_Key sample_getOutput sample_DAG_Add
                   sample_Flush sample_NilRepo
                   0%nat 0%nat true false false false file_a
                   [ev_Send (mkAddedObject "dir/a.txt" "" 300);
                    ev_DagAdd 0%nat ("dir/a.txt", []);
                    ev_Send (mkAddedObject "dir/a.txt" "Qm-dir/a.txt" 0)]
                   ("dir/a.txt", []) "key-dir/a.txt" _ _ _));
    reflexivity.
Defined.

(** The same file with [only-hash]: everything goes to node 1, and nothing
    is pinned or flushed. *)
Example addSingleFile_only_hash_sample :
  fst (sample_Run (Ok 0%nat) false false true true false file_a)
  = [ev_PinLock 1%nat DataBlocks; ev_PinLock 1%nat StateBlocks;
     ev_DagAdd 1%nat ("dir/a.txt", []);
     ev_Send (mkAddedObject "dir/a.txt" "Qm-dir/a.txt" 0);
     ev_Unlock 1%nat StateBlocks; ev_Unlock 1%nat DataBlocks;
     Close nat sample_Node string].
Proof. reflexivity. Qed.

(** A directory with a file and a hidden file: the hidden file adds no
    link; alone at the top level, it makes the command fail. *)
Lemma hidden_child_skipped_sample :
  sample_addDir (mkAdder nat 0%nat false false false)
    (mkFile "dir" true [(Some file_a, None); (Some file_hidden, None)])
  = ([ev_DagAdd 0%nat ("dir/a.txt", []);
      ev_Send (mkAddedObject "dir/a.txt" "Qm-dir/a.txt" 0);
      ev_Send (mkAddedObject "dir" "Qm-folder" 0);
      ev_DagAdd 0%nat ("folder", ["a.txt"])],
     Ok ("folder", ["a.txt"]))
  /\ snd (sample_Run (Ok 0%nat) false false false false false
            (mkFile "" true [(Some file_hidden, None)]))
     = Err (hiddenFileError "dir/.git").
Proof.
  pose proof (hidden_child_skipped_hidden_item_fails nat sample_Node string
                sample_IsHidden sample_Build sample_Build sample_FolderNode
                sample_AddNodeLink sample_Key sample_getOutput sample_DAG_Add
                sample_Flush sample_NilRepo
                0%nat 0%nat false false false "dir" true
                [(Some file_a, None)] [] file_hidden None
                eq_refl eq_refl eq_refl) as (Hdir & _ & _ & _).
  pose proof (hidden_child_skipped_hidden_item_fails nat sample_Node string
                sample_IsHidden sample_Build sample_Build sample_FolderNode
                sample_AddNodeLink sample_Key sample_getOutput sample_DAG_Add
                sample_Flush sample_NilRepo
                0%nat 0%nat false false false "" true
                [] [] file_hidden None
                eq_refl eq_refl eq_refl) as (_ & _ & _ & Hrun).
  split; [|exact Hrun].
  exact (eq_trans Hdir eq_refl).
Defined.

(** A directory whose second child cannot be read: the error comes back,
    the first child was added, and the directory itself was neither
    reported nor written. *)
Lemma addDir_aborts_sample :
  sample_addDir (mkAdder nat 0%nat false false false)
    (mkFile "dir" true
       [(Some file_a, None); (Some file_broken, None); (Some file_c, None)])
  = ([ev_DagAdd 0%nat ("dir/a.txt", []);
      ev_Send (mkAddedObject "dir/a.txt" "Qm-dir/a.txt" 0)],
     Err (errorString "read failed")).
Proof.
  refine (proj1 (addDir_aborts_on_child_error nat sample_Node string
                   sample_IsHidden sample_Build sample_Build sample_FolderNode
                   sample_AddNodeLink sample_getOutput sample_DAG_Add
                   (mkAdder nat 0%nat false false false) "dir" true
                   [(Some file_a, None)] [(Some file_c, None)]
                   file_broken None
                   [ev_DagAdd 0%nat ("dir/a.txt", []);
                    ev_Send (mkAddedObject "dir/a.txt" "Qm-dir/a.txt" 0)]
                   [] ("folder", ["a.txt"]) (errorString "read failed")
                   _ _ _ _ _)).
  - repeat constructor. discriminate.
  - reflexivity.
  - reflexivity.
  - reflexivity.
  - reflexivity.
Defined.

(** C7, as worded: every record would have its hash or its bytes set.  An
    empty file added with progress sends, at end-of-stream, a record whose
    hash is empty and whose byte count is zero. *)
Lemma Run_sends_record_with_neither_set :
  ev_Send (mkAddedObject "dir/empty" "" 0)
    ∈ fst (Run nat sample_Node string sample_IsHidden sample_Build_empty
             sample_Build_empty sample_FolderNode sample_AddNodeLink sample_Key
             sample_getOutput sample_DAG_Add sample_Flush sample_NilRepo
             (Ok 0%nat) true false false false false
             (mkFile "" true [(Some file_empty, None)]))
  /\ Hash (mkAddedObject "dir/empty" "" 0) = EmptyString
  /\ Bytes (mkAddedObject "dir/empty" "" 0) = 0%Z.
Proof. split; [vm_compute; repeat constructor|split; reflexivity]. Qed.

(** The two records of one file added with progress: the progress record
    has no hash, the completion record no byte count. *)
Lemma Run_sends_sample :
  ((completion_record sample_Node sample_getOutput (mkAddedObject "dir/a.txt" "" 300)
    \/ progress_record (mkAddedObject "dir/a.txt" "" 300))
   /\ ~ both_set (mkAddedObject "dir/a.txt" "" 300))
  /\ ((completion_record sample_Node sample_getOutput
         (mkAddedObject "dir/a.txt" "Qm-dir/a.txt" 0)
       \/ progress_record (mkAddedObject "dir/a.txt" "Qm-dir/a.txt" 0))
      /\ ~ both_set (mkAddedObject "dir/a.txt" "Qm-dir/a.txt" 0)).
Proof.
  split.
  - apply (Run_sends_completion_or_progress nat sample_Node string
             sample_IsHidden sample_Build sample_Build sample_FolderNode
             sample_AddNodeLink sample_Key sample_getOutput sample_DAG_Add
             sample_Flush sample_NilRepo
             (Ok 0%nat) true false false false false
             (mkFile "" true [(Some file_a, None)])).
    vm_compute. repeat constructor.
  - apply (Run_sends_completion_or_progress nat sample_Node string
             sample_IsHidden sample_Build sample_Build sample_FolderNode
             sample_AddNodeLink sample_Key sample_getOutput sample_DAG_Add
             sample_Flush sample_NilRepo
             (Ok 0%nat) true false false false false
             (mkFile "" true [(Some file_a, None)])).
    vm_compute. repeat constructor.
Defined.

(** A file of 300 bytes: no record at the read of 300 bytes, one at
    end-of-stream, carrying 300. *)
Lemma read_all_sample :
  read_all (mkProgressReader file_a 0 0) [(300%Z, None); (0%Z, Some io_EOF)]
  = [mkAddedObject "dir/a.txt" "" 300].
Proof.
  refine (eq_trans (proj2 (read_all_sends_at_threshold_or_EOF file_a
                             [(300%Z, None); (0%Z, Some io_EOF)] _)) _).
  - split; [repeat constructor; cbn; lia|cbn; lia].
  - reflexivity.
Defined.

(** Three reads of 200000, 100000 and 0 bytes, the last at end-of-stream:
    a record when 256 KiB are passed, and one with the total at the end. *)
Lemma read_all_last_record_sample :
  last (read_all (mkProgressReader file_a 0 0)
          [(200000%Z, None); (100000%Z, None); (0%Z, Some io_EOF)])
  = Some (mkAddedObject "dir/a.txt" "" 300000).
Proof.
  refine (read_all_last_record_is_total file_a
            [(200000%Z, None); (100000%Z, None)] 0%Z _).
  split; [repeat constructor; cbn; lia|cbn; lia].
Defined.

Lemma read_all_rate_sample :
  (progressReaderIncrement
   * (Z.of_nat (length (read_all (mkProgressReader file_a 0 0)
                          [(200000%Z, None); (100000%Z, None); (0%Z, Some io_EOF)]))
      - Z.of_nat (eof_reads [(200000%Z, None); (100000%Z, None); (0%Z, Some io_EOF)]))
   <= total_read [(200000%Z, None); (100000%Z, None); (0%Z, Some io_EOF)])%Z.
Proof.
  refine (read_all_rate file_a
            [(200000%Z, None); (100000%Z, None); (0%Z, Some io_EOF)] _).
  split; [repeat constructor; cbn; lia|cbn; lia].
Defined.

Lemma read_all_sorted_sample :
  StronglySorted Z.le
    (Bytes <$> read_all (mkProgressReader file_a 0 0)
                 [(200000%Z, None); (100000%Z, None); (0%Z, Some io_EOF)]).
Proof.
  refine (proj1 (read_all_sorted file_a
                   [(200000%Z, None); (100000%Z, None); (0%Z, Some io_EOF)] _)).
  split; [repeat constructor; cbn; lia|cbn; lia].
Defined.

(** A request that says [--progress=false] and nothing else, for files of
    1000 bytes: [Run] streams progress all the same. *)
Lemma PreRun_turns_progress_on_sample :
  Run_request nat sample_Node string sample_IsHidden sample_Build sample_Build
    sample_FolderNode sample_AddNodeLink sample_Key sample_getOutput sample_DAG_Add
    sample_Flush sample_NilRepo (gmap string bool) sample_Option_Bool
    (fst (PreRun (gmap string bool) sample_Option_Bool sample_SetOption
            {["progress" := false]} (Some (Ok 1000%Z)) ∅))
    (Ok 0%nat) (mkFile "" true [(Some file_a, None)])
  = sample_Run (Ok 0%nat) true false false false false
      (mkFile "" true [(Some file_a, None)])
  /\ snd (PreRun (gmap string bool) sample_Option_Bool sample_SetOption
            {["progress" := false]} (Some (Ok 1000%Z)) ∅) !! "size"
     = Some 1000%Z.
Proof.
  refine (PreRun_turns_progress_on nat sample_Node string sample_IsHidden
            sample_Build sample_Build sample_FolderNode sample_AddNodeLink
            sample_Key sample_getOutput sample_DAG_Add sample_Flush sample_NilRepo
            (gmap string bool) sample_Option_Bool sample_SetOption
            {["progress" := false]} (Some (Ok 1000%Z)) ∅
            (Ok 0%nat) (mkFile "" true [(Some file_a, None)]) _ _).
  - intros r. unfold sample_Option_Bool, sample_SetOption.
    now rewrite lookup_insert_eq.
  - intros r name Hin. unfold sample_Option_Bool, sample_SetOption.
    rewrite lookup_insert_ne; [reflexivity|].
    rewrite !elem_of_cons, elem_of_nil in Hin.
    destruct Hin as [->|[->|[->|[->|[]]]]]; discriminate.
Defined.

(** Two progress records and the completion record of one file, on a bar
    whose [Add64] adds. *)
Lemma PostRun_bar_follows_sample :
  bar_current
    (fst (PostRun_loop (fun c d => int64 (c + d)) false true post_start
            [mkAddedObject "dir/a.txt" "" 262144; mkAddedObject "dir/a.txt" "" 300000;
             mkAddedObject "dir/a.txt" "Qm-dir/a.txt" 0]))
  = 300000%Z.
Proof.
  refine (PostRun_bar_follows_one_file (fun c d => int64 (c + d)) false "dir/a.txt"
            [mkAddedObject "dir/a.txt" "" 262144; mkAddedObject "dir/a.txt" "" 300000;
             mkAddedObject "dir/a.txt" "Qm-dir/a.txt" 0] _ _ _).
  - intros c d. reflexivity.
  - repeat (apply Forall_cons; split); [| |discriminate|apply Forall_nil; exact I];
      intros _; (split; [reflexivity|cbn; lia]).
  - cbn. repeat constructor; lia.
Defined.

Lemma PostRun_bar_ends_sample :
  bar_current
    (fst (PostRun_loop (fun c d => int64 (c + d)) false true post_start
            (read_all (mkProgressReader file_a 0 0)
               ([(200000%Z, None); (100000%Z, None)] ++ [(0%Z, Some io_EOF)])
             ++ [mkAddedObject (FileName file_a) "Qm-dir/a.txt" 0])))
  = (total_read [(200000%Z, None); (100000%Z, None)] + 0)%Z.
Proof.
  refine (PostRun_bar_ends_at_bytes_read (fun c d => int64 (c + d)) false file_a
            [(200000%Z, None); (100000%Z, None)] 0%Z "Qm-dir/a.txt" _ _ _).
  - intros c d. reflexivity.
  - split; [repeat constructor; cbn; lia|cbn; lia].
  - discriminate.
Defined.

(** C8, as worded: a record would be due only when the bytes read since the
    last record exceed 256 KiB.  A read that brings them to exactly 256 KiB,
    not at end-of-stream, sends a record. *)
Lemma Read_sends_at_exactly_the_threshold :
  counts_ok [(262144%Z, None)]
  /\ read_all (mkProgressReader file_a 0 0) [(262144%Z, None)]
     = [mkAddedObject "dir/a.txt" "" 262144]
  /\ ~ (progressReaderIncrement < 262144 - 0)%Z
  /\ at_EOF None = false
  /\ progress_due_strict progressReaderIncrement "dir/a.txt" 0 0 [(262144%Z, None)] = []
  /\ read_all (mkProgressReader file_a 0 0) [(262144%Z, None)]
     <> progress_due_strict progressReaderIncrement (FileName file_a) 0 0
          [(262144%Z, None)].
Proof.
  split; [split; [repeat constructor; cbn; lia|cbn; lia]|].
  split; [reflexivity|]. split; [unfold progressReaderIncrement; lia|].
  split; [reflexivity|]. split; [reflexivity|]. discriminate.
Qed.

(** An empty file with progress: the record sent at end-of-stream carries a
    byte count of zero. *)
Example read_all_empty_file :
  read_all (mkProgressReader file_a 0 0) [(0%Z, Some io_EOF)]
  = [mkAddedObject "dir/a.txt" "" 0].
Proof. reflexivity. Qed.

End add.
